(** * pocovidnet.evaluate_video: frame selection, CAM dispatch and
      uncertainty estimation of [VideoEvaluator]

    A shallow embedding of [pocovidnet/evaluate_video.py].  Finite float
    values are represented by the rational they denote ([Q]); NumPy arrays are
    nested lists together with shape predicates; the attributes of the
    [VideoEvaluator] instance, the random state of the augmentor and of the
    dropout models, and the sequence of calls made to the external
    collaborators (OpenCV, Keras models, CAM routines) are threaded through a
    small state-and-exception monad. *)

From Stdlib Require Import String Ascii.
From Stdlib Require Import List ZArith QArith Lia Bool Arith Permutation Sorted.
Import ListNotations.

Local Open Scope Q_scope.

(** ** Python exceptions and results *)

Inductive exn : Type :=
| ValueError
| TypeError
| IndexError
| AttributeError
| AssertionError.

Inductive result (A : Type) : Type :=
| Ok (a : A)
| Raise (e : exn).
Arguments Ok {A} a.
Arguments Raise {A} e.

(** ** The fragment of NumPy used by the module *)

Module Numpy.

(** [a < b] on finite floats. *)
Definition Qltb (a b : Q) : bool := negb (Qle_bool b a).

(** [arr[i]] for a non-negative index: [IndexError] out of range. *)
Definition getitem {A} (arr : list A) (i : nat) : result A :=
  match nth_error arr i with
  | Some x => Ok x
  | None => Raise IndexError
  end.

(** [arr[i] = x] for a non-negative index: [IndexError] out of range. *)
Fixpoint setitem {A} (arr : list A) (i : nat) (x : A) : result (list A) :=
  match arr, i with
  | [], _ => Raise IndexError
  | _ :: r, O => Ok (x :: r)
  | y :: r, S i' =>
      match setitem r i' x with
      | Ok r' => Ok (y :: r')
      | Raise e => Raise e
      end
  end.

(** [arr[start:]] with Python's treatment of a negative or too large
    start. *)
Definition slice_from {A} (start : Z) (arr : list A) : list A :=
  let n := Z.of_nat (length arr) in
  let s := if (start <? 0)%Z then
             (if (start + n <? 0)%Z then 0 else start + n)%Z
           else (if (n <? start)%Z then n else start) in
  skipn (Z.to_nat s) arr.

(** [arr > scalar]: the boolean mask. *)
Definition greater (arr : list Q) (scalar : Q) : list bool :=
  map (fun v => Qltb scalar v) arr.

Fixpoint where_from (i : nat) (mask : list bool) : list nat :=
  match mask with
  | [] => []
  | b :: m => if b then i :: where_from (S i) m else where_from (S i) m
  end.

(** [np.where(mask)[0]] for a one-dimensional mask. *)
Definition np_where (mask : list bool) : list nat := where_from 0 mask.

Fixpoint argmax_from (best_i : nat) (best : Q) (i : nat) (xs : list Q) : nat :=
  match xs with
  | [] => best_i
  | x :: r =>
      if Qltb best x then argmax_from i x (S i) r
      else argmax_from best_i best (S i) r
  end.

(** [np.argmax] of a one-dimensional array: the first position of the
    maximum; [ValueError] on an empty array. *)
Definition argmax (xs : list Q) : result nat :=
  match xs with
  | [] => Raise ValueError
  | x :: r => Ok (argmax_from 0 x 1 r)
  end.

(** Element-wise addition of equally shaped arrays. *)
Fixpoint add1 (a b : list Q) : list Q :=
  match a, b with
  | x :: a', y :: b' => (x + y) :: add1 a' b'
  | _, _ => []
  end.

Fixpoint add2 (a b : list (list Q)) : list (list Q) :=
  match a, b with
  | x :: a', y :: b' => add1 x y :: add2 a' b'
  | _, _ => []
  end.

(** [np.add.reduce(arr, axis=0)]: the slices along the leading axis are
    accumulated from the first one on. *)
Definition sum_axis0_2d (arr : list (list Q)) : list Q :=
  match arr with
  | [] => []
  | r :: rest => fold_left add1 rest r
  end.

Definition sum_axis0_3d (arr : list (list (list Q))) : list (list Q) :=
  match arr with
  | [] => []
  | m :: rest => fold_left add2 rest m
  end.

Definition count {A} (arr : list A) : Q := inject_Z (Z.of_nat (length arr)).

(** [np.mean(arr, axis=0, keepdims=False)]: the sum along axis 0 divided by
    the length of that axis.  (For an empty leading axis NumPy yields NaN
    entries; the list representation has lost the trailing shape there and
    yields the empty array.) *)
Definition mean_axis0_2d (arr : list (list Q)) : list Q :=
  map (fun s => s / count arr) (sum_axis0_2d arr).

Definition mean_axis0_3d (arr : list (list (list Q))) : list (list Q) :=
  map (map (fun s => s / count arr)) (sum_axis0_3d arr).

(** [arr[:, c]] of a two-dimensional array. *)
Fixpoint column (arr : list (list Q)) (c : nat) : result (list Q) :=
  match arr with
  | [] => Ok []
  | r :: rest =>
      match getitem r c, column rest c with
      | Ok x, Ok xs => Ok (x :: xs)
      | Raise e, _ => Raise e
      | _, Raise e => Raise e
      end
  end.

(** [arr[:, f, c]] of a three-dimensional array. *)
Fixpoint column3 (arr : list (list (list Q))) (f c : nat) : result (list Q) :=
  match arr with
  | [] => Ok []
  | m :: rest =>
      match getitem m f with
      | Ok row =>
          match getitem row c, column3 rest f c with
          | Ok x, Ok xs => Ok (x :: xs)
          | Raise e, _ => Raise e
          | _, Raise e => Raise e
          end
      | Raise e => Raise e
      end
  end.

(** Shapes of nested lists standing for rectangular arrays. *)
Definition shape2 (arr : list (list Q)) (F C : nat) : Prop :=
  length arr = F /\ Forall (fun row => length row = C) arr.

Definition shape3 (arr : list (list (list Q))) (M F C : nat) : Prop :=
  length arr = M /\ Forall (fun m => shape2 m F C) arr.

Definition same_shape2 (a b : list (list Q)) : bool :=
  if list_eq_dec Nat.eq_dec (map (@length Q) a) (map (@length Q) b)
  then true else false.

(** [np.stack(arrays)] along a new leading axis: [ValueError] when there is
    no array or when the shapes differ. *)
Definition stack (arrays : list (list (list Q))) : result (list (list (list Q))) :=
  match arrays with
  | [] => Raise ValueError
  | a :: rest =>
      if forallb (same_shape2 a) rest then Ok arrays else Raise ValueError
  end.

End Numpy.

(** ** [np.argsort] with the default [kind]

    The default kind of [np.argsort] is NumPy's introsort on an array of
    indices: median-of-three quicksort on ranges of more than seventeen
    entries, insertion sort below, heapsort once the depth budget is used up.
    The index array is a list, pointers are positions in it. *)

Module Npysort.
Import Numpy.

Definition SMALL_QUICKSORT : nat := 16.

Definition idx (a : list nat) (p : nat) : nat := nth p a 0%nat.

(** [v[*p]] *)
Definition key (v : list Q) (a : list nat) (p : nat) : Q :=
  nth (idx a p) v 0.

Fixpoint upd (a : list nat) (p x : nat) : list nat :=
  match a, p with
  | [], _ => []
  | _ :: r, O => x :: r
  | y :: r, S p' => y :: upd r p' x
  end.

(** [INTP_SWAP] of the entries at positions [p] and [q]. *)
Definition swap (a : list nat) (p q : nat) : list nat :=
  upd (upd a p (idx a q)) q (idx a p).

(** [do { ++pi; } while (less(v[*pi], vp));] *)
Fixpoint scan_up (fuel : nat) (v : list Q) (a : list nat) (vp : Q) (pi : nat) : nat :=
  match fuel with
  | O => S pi
  | S fuel' =>
      if Qltb (key v a (S pi)) vp then scan_up fuel' v a vp (S pi) else S pi
  end.

(** [do { --pj; } while (less(vp, v[*pj]));] *)
Fixpoint scan_down (fuel : nat) (v : list Q) (a : list nat) (vp : Q) (pj : nat) : nat :=
  match fuel with
  | O => pj - 1
  | S fuel' =>
      if Qltb vp (key v a (pj - 1)) then scan_down fuel' v a vp (pj - 1)
      else (pj - 1)%nat
  end.

(** The [for (;;)] loop of the partition. *)
Fixpoint part_loop (fuel : nat) (v : list Q) (vp : Q) (a : list nat) (pi pj : nat)
  : list nat * nat :=
  match fuel with
  | O => (a, pi)
  | S fuel' =>
      let pi' := scan_up (length a) v a vp pi in
      let pj' := scan_down (length a) v a vp pj in
      if (pj' <=? pi')%nat then (a, pi')
      else part_loop fuel' v vp (swap a pi' pj') pi' pj'
  end.

(** One quicksort partition of the range [pl..pr]; returns the array and
    the final position of the pivot. *)
Definition partition (v : list Q) (a : list nat) (pl pr : nat) : list nat * nat :=
  let pm := (pl + Nat.div2 (pr - pl))%nat in
  let a := if Qltb (key v a pm) (key v a pl) then swap a pm pl else a in
  let a := if Qltb (key v a pr) (key v a pm) then swap a pr pm else a in
  let a := if Qltb (key v a pm) (key v a pl) then swap a pm pl else a in
  let vp := key v a pm in
  let a := swap a pm (pr - 1) in
  let '(a, pi) := part_loop (length a) v vp a pl (pr - 1) in
  (swap a pi (pr - 1), pi).

(** [while (pj > pl && less(vp, v[*pk])) { *pj-- = *pk--; }] *)
Fixpoint ins_shift (fuel : nat) (v : list Q) (vp : Q) (pl : nat) (a : list nat) (pj : nat)
  : list nat * nat :=
  match fuel with
  | O => (a, pj)
  | S fuel' =>
      if (pl <? pj)%nat && Qltb vp (key v a (pj - 1))
      then ins_shift fuel' v vp pl (upd a pj (idx a (pj - 1))) (pj - 1)
      else (a, pj)
  end.

Fixpoint ins_loop (n : nat) (v : list Q) (pl : nat) (a : list nat) (pi : nat) : list nat :=
  match n with
  | O => a
  | S n' =>
      let vi := idx a pi in
      let vp := nth vi v 0 in
      let '(a', pj) := ins_shift pi v vp pl a pi in
      ins_loop n' v pl (upd a' pj vi) (S pi)
  end.

(** Insertion sort of the range [pl..pr]. *)
Definition insertion (v : list Q) (a : list nat) (pl pr : nat) : list nat :=
  ins_loop (pr - pl) v pl a (S pl).

(** Heapsort of the [n] entries from position [base] on, with the one-based
    indexing of the C routine: [a[i]] is position [base + i - 1]. *)
Definition pos (base i : nat) : nat := (base + i - 1)%nat.

Fixpoint sift (fuel : nat) (v : list Q) (base n tmp : nat) (a : list nat) (i j : nat)
  : list nat :=
  match fuel with
  | O => upd a (pos base i) tmp
  | S fuel' =>
      if (j <=? n)%nat then
        let j' := if (j <? n)%nat
                     && Qltb (key v a (pos base j)) (key v a (pos base (j + 1)))
                  then (j + 1)%nat else j in
        if Qltb (nth tmp v 0) (key v a (pos base j'))
        then sift fuel' v base n tmp (upd a (pos base i) (idx a (pos base j'))) j' (j' + j')
        else upd a (pos base i) tmp
      else upd a (pos base i) tmp
  end.

Fixpoint heapify (l : nat) (v : list Q) (base n : nat) (a : list nat) : list nat :=
  match l with
  | O => a
  | S l' => heapify l' v base n (sift n v base n (idx a (pos base l)) a l (l + l)) 
  end.

Fixpoint heap_pop (n : nat) (v : list Q) (base : nat) (a : list nat) : list nat :=
  match n with
  | O => a
  | S n' =>
      if (1 <? n)%nat then
        let tmp := idx a (pos base n) in
        let a := upd a (pos base n) (idx a (pos base 1)) in
        heap_pop n' v base (sift n v base n' tmp a 1 2)
      else a
  end.

Definition aheapsort (v : list Q) (a : list nat) (base n : nat) : list nat :=
  heap_pop n v base (heapify (Nat.div2 n) v base n a).

(** The driver: [cur] is the range being sorted with its depth budget,
    [None] stands for the label [stack_pop]. *)
Fixpoint aquicksort_loop (fuel : nat) (v : list Q) (a : list nat)
    (cur : option (nat * nat * Z)) (stack : list (nat * nat * Z)) : list nat :=
  match fuel with
  | O => a
  | S fuel' =>
      match cur with
      | None =>
          match stack with
          | [] => a
          | (pl, pr, d) :: st =>
              if (d <? 0)%Z
              then aquicksort_loop fuel' v (aheapsort v a pl (pr - pl + 1)) None st
              else aquicksort_loop fuel' v a (Some (pl, pr, d)) st
          end
      | Some (pl, pr, d) =>
          if (SMALL_QUICKSORT <? pr - pl)%nat then
            let '(a', pi) := partition v a pl pr in
            if (pi - pl <? pr - pi)%nat
            then aquicksort_loop fuel' v a' (Some (pl, (pi - 1)%nat, (d - 1)%Z))
                   ((S pi, pr, (d - 1)%Z) :: stack)
            else aquicksort_loop fuel' v a' (Some (S pi, pr, (d - 1)%Z))
                   ((pl, (pi - 1)%nat, (d - 1)%Z) :: stack)
          else aquicksort_loop fuel' v (insertion v a pl pr) None stack
      end
  end.

Definition aquicksort (v : list Q) (tosort : list nat) : list nat :=
  let num := length tosort in
  match num with
  | O => tosort
  | S _ =>
      let cdepth := (Z.log2 (Z.of_nat num) * 2)%Z in
      aquicksort_loop (4 * num + 8) v tosort (Some (0%nat, (num - 1)%nat, cdepth)) []
  end.

(** [np.argsort(v)] for a one-dimensional array. *)
Definition argsort (v : list Q) : list nat :=
  aquicksort v (seq 0 (length v)).

End Npysort.

(** ** External collaborators

    Everything the module obtains from OpenCV, Keras and the sibling modules
    of pocovidnet ([Evaluator], [GradCAM], [get_class_activation_map],
    [utils_uncertainty]).  Float results are rationals; images are opaque. *)

Record Config : Type := {
  weights_dir : string;
  ensemble : bool;
  split : option nat;
  model_id : string;
  num_classes : nat
}.

Class Backend : Type := {
  Raw : Type;      (* a decoded video frame *)
  Frame : Type;    (* a preprocessed frame, the input of a model *)
  Image : Type;    (* an array of the output dimensions *)
  Model : Type;
  Rng : Type;      (* random state of the augmentor and of dropout *)
  (* [cv2.VideoCapture]: [None] when the path does not exist, otherwise the
     frames read until [cap.read()] first fails *)
  video_capture : string -> option (list Raw);
  (* [self.preprocess(frame)[0]] *)
  preprocess : Raw -> Frame;
  (* [model.predict(image_arr)], of shape frames x classes *)
  predict : Model -> list Frame -> list (list Q);
  (* [model(input_images)] *)
  model_call : Model -> list Frame -> Rng -> list (list Q) * Rng;
  (* [Evaluator(..., mc_dropout=...).models] *)
  Evaluator_models : Config -> bool -> list Model;
  (* [next(self.augmentor.flow(image))] *)
  augmentor_flow_next : Frame -> Rng -> Frame * Rng;
  (* [image.astype(np.float32)] *)
  astype_float32 : Frame -> Frame;
  (* [get_class_activation_map(model, np.expand_dims(img, 0), class_idx,
     zeroing=, size=).astype(int)] *)
  get_class_activation_map : Model -> Frame -> nat -> Q -> Z * Z -> Image;
  (* [GradCAM().explain(img, model, class_idx, return_map=False,
     layer_name=, zeroing=, image_weight=, heatmap_weight=)] *)
  gradcam_explain : Frame -> Model -> nat -> string -> Q -> Q -> Q -> Image;
  (* [(cv2.resize(img, dims) * 255).astype(int)] *)
  cv2_resize : Frame -> Z * Z -> Image;
  scale255_astype_int : Image -> Image;
  (* [x.astype("uint8")] *)
  astype_uint8 : Image -> Image;
  (* the value stored by [arr[i] = x] when the entries of [arr] have the
     shape [dims + (3,)]: [x] broadcast to that shape, [None] when the
     shapes do not fit and NumPy raises [ValueError] *)
  broadcast_to : Z * Z -> Image -> option Image;
  overlay_precision_gauge : Image -> Q -> Image;
  confidence_to_precision : Q -> Q;
  (* [np.std(raw_logits, axis=0)] *)
  np_std_axis0 : list (list Q) -> list Q;
  (* [np.argsort] with the default kind *)
  np_argsort : list Q -> list nat
}.

(** ** Frame selection (lines 95-98 of [cam_important_frames]) *)

Section Selection.
Import Numpy.

Variable argsort : list Q -> list nat.

(** [scores] is [mean_preds[:, class_idx]]. *)
Definition best_frames (nr_cams : option Z) (threshold : Q) (scores : list Q)
  : list nat :=
  match nr_cams with
  | Some k => slice_from (- k) (argsort scores)
  | None => np_where (greater scores threshold)
  end.

(** [important_frames]: [np.argsort(frame_scores)[-n_return:]]. *)
Definition important_frames (preds : list (list Q)) (predicted_class : nat)
    (n_return : Z) : result (list nat) :=
  match column preds predicted_class with
  | Ok frame_scores => Ok (slice_from (- n_return) (argsort frame_scores))
  | Raise e => Raise e
  end.

End Selection.

(** ** The evaluator *)

Section Evaluator.
Import Numpy.
Context {B : Backend}.

(** Attributes of a [VideoEvaluator] instance; the three optional ones are
    unset until the method that assigns them has run. *)
Record VideoEvaluator : Type := {
  config : Config;
  models : list Model;
  image_arr : option (list Frame);
  predictions : option (list (list (list Q)));
  dropout_evaluator : option (list Model)
}.

Inductive message : Type :=
| MsgPredClass (class_idx : nat) (frames : list nat)
| MsgInvalidMethod (method : string).

(** Calls to the outside, in the order they are made. *)
Inductive event : Type :=
| EvPrint (m : message)
| EvEvaluator (c : Config) (mc_dropout : bool)
| EvResize (idx : nat) (dims : Z * Z)
| EvCam (in_img : Frame) (model_idx class_idx : nat) (map_mode : bool)
| EvAugment (image : Frame)
| EvInference (dropout : bool) (model_idx : nat) (input_images : list Frame)
| EvVideoWriter (path : string) (fps : Q) (dims : Z * Z)
| EvWrite (x : Image)
| EvRelease.

Record world : Type := {
  self : VideoEvaluator;
  rng : Rng;
  log : list event
}.

(** State and exceptions: what was assigned before a [raise] stays
    assigned. *)
Definition M (A : Type) : Type := world -> world * result A.

Definition ret {A} (a : A) : M A := fun w => (w, Ok a).

Definition bind {A C} (m : M A) (k : A -> M C) : M C :=
  fun w =>
    match m w with
    | (w', Ok a) => k a w'
    | (w', Raise e) => (w', Raise e)
    end.

Definition raise {A} (e : exn) : M A := fun w => (w, Raise e).

Definition lift {A} (r : result A) : M A := fun w => (w, r).

Definition emit (e : event) : M unit :=
  fun w => ({| self := self w; rng := rng w; log := log w ++ [e] |}, Ok tt).

Definition get_self : M VideoEvaluator := fun w => (w, Ok (self w)).

Definition put_self (s : VideoEvaluator) : M unit :=
  fun w => ({| self := s; rng := rng w; log := log w |}, Ok tt).

(** Reading an attribute that was never assigned. *)
Definition attr {A} (field : VideoEvaluator -> option A) : M A :=
  fun w =>
    match field (self w) with
    | Some a => (w, Ok a)
    | None => (w, Raise AttributeError)
    end.

(** A call that draws from the random state. *)
Definition random {A} (f : Rng -> A * Rng) : M A :=
  fun w =>
    let '(a, r) := f (rng w) in
    ({| self := self w; rng := r; log := log w |}, Ok a).

End Evaluator.

Declare Scope py_scope.
Delimit Scope py_scope with py.
Notation "x <- c ;; k" := (bind c (fun x => k))
  (at level 61, c at next level, right associativity) : py_scope.
Notation "' pat <- c ;; k" := (bind c (fun x => match x with pat => k end))
  (at level 61, pat pattern, c at next level, right associativity) : py_scope.
Notation "c ;; k" := (bind c (fun _ => k))
  (at level 61, right associativity) : py_scope.

Section Methods.
Import Numpy.
Context {B : Backend}.
Local Open Scope py_scope.

Definition set_image_arr (x : list Frame) : M unit :=
  s <- get_self ;;
  put_self {| config := config s; models := models s; image_arr := Some x;
              predictions := predictions s;
              dropout_evaluator := dropout_evaluator s |}.

Definition set_predictions (x : list (list (list Q))) : M unit :=
  s <- get_self ;;
  put_self {| config := config s; models := models s; image_arr := image_arr s;
              predictions := Some x;
              dropout_evaluator := dropout_evaluator s |}.

Definition set_dropout_evaluator (x : list Model) : M unit :=
  s <- get_self ;;
  put_self {| config := config s; models := models s; image_arr := image_arr s;
              predictions := predictions s;
              dropout_evaluator := Some x |}.

(** [read_video]: the assertion on the path, then every decoded frame is
    preprocessed. *)
Definition read_video (video_path : string) : M (list Frame) :=
  match video_capture video_path with
  | None => raise AssertionError
  | Some frames => ret (map preprocess frames)
  end.

(** [__call__] *)
Definition __call__ (video_path : string) : M (list (list Q)) :=
  images <- read_video video_path ;;
  set_image_arr images ;;
  s <- get_self ;;
  image_arr <- attr image_arr ;;
  preds <- lift (stack (map (fun model => predict model image_arr) (models s))) ;;
  set_predictions preds ;;
  predictions <- attr predictions ;;
  ret (mean_axis0_3d predictions).

(** [make_dropout_evaluator] *)
Definition make_dropout_evaluator : M unit :=
  s <- get_self ;;
  emit (EvEvaluator (config s) true) ;;
  set_dropout_evaluator (Evaluator_models (config s) true).

(** ["cam" in self.model_id] *)
Definition contains (needle hay : string) : bool :=
  match String.index 0 needle hay with Some _ => true | None => false end.

(** [compute_cam] *)
Definition compute_cam (in_img : Frame) (model_idx class_idx : nat) (zeroing : Q)
    (out_size : Z * Z) : M Image :=
  s <- get_self ;;
  if contains "cam" (model_id (config s)) then
    model <- lift (getitem (models s) model_idx) ;;
    emit (EvCam in_img model_idx class_idx true) ;;
    ret (get_class_activation_map model in_img class_idx zeroing out_size)
  else
    model <- lift (getitem (models s) model_idx) ;;
    emit (EvCam in_img model_idx class_idx false) ;;
    ret (gradcam_explain in_img model class_idx "block5_conv3" zeroing 1 (1 # 4)).

Definition classes : list string :=
  ["covid"; "pneumonia"; "regular"; "uninformative"]%string.

(** The part of [get_uncertainty] after the choice of the model (from
    "MAIN STEP" on). *)
Definition uncertainty_of (dropout : bool) (model_idx : nat) (model : Model)
    (image : Frame) (runs : nat) : M (option (Q * string)) :=
  let input_images := map (fun _ => astype_float32 image) (seq 0 runs) in
  emit (EvInference dropout model_idx input_images) ;;
  raw_logits <- random (model_call model input_images) ;;
  let logits_mean := mean_axis0_2d raw_logits in
  let logits_stds := np_std_axis0 raw_logits in
  pred_idx <- lift (argmax logits_mean) ;;
  pred_class <- lift (getitem classes pred_idx) ;;
  std <- lift (getitem logits_stds pred_idx) ;;
  ret (Some (confidence_to_precision std, pred_class)).

(** [get_uncertainty]; the bare [return] yields [None]. *)
Definition get_uncertainty (model_idx : nat) (image : Frame) (runs : nat)
    (method : string) : M (option (Q * string)) :=
  if String.eqb method "epistemic" then
    dropout_models <- attr dropout_evaluator ;;
    model <- lift (getitem dropout_models model_idx) ;;
    uncertainty_of true model_idx model image runs
  else if String.eqb method "aleatoric" then
    s <- get_self ;;
    model <- lift (getitem (models s) model_idx) ;;
    emit (EvAugment image) ;;
    image <- random (augmentor_flow_next image) ;;
    uncertainty_of false model_idx model image runs
  else
    emit (EvPrint (MsgInvalidMethod method)) ;;
    ret None.

(** Assignment of an image to an entry of an array of images of the shape
[dims]. *)
Definition assign (dims : Z * Z) (x : Image) : M Image :=
  match broadcast_to dims x with
  | Some y => ret y
  | None => raise ValueError
  end.

(** The loop "Resize images": [copied_arr[idx] = (cv2.resize(...) * 255).astype(int)]
for [idx] from [idx] on, over the remaining frames. *)
Fixpoint resize_loop (dims : Z * Z) (idx : nat) (frames : list Frame)
  : M (list Image) :=
  match frames with
  | [] => ret []
  | img :: rest =>
      emit (EvResize idx dims) ;;
      x <- assign dims (scale255_astype_int (cv2_resize img dims)) ;;
      copied <- resize_loop dims (S idx) rest ;;
      ret (x :: copied)
  end.

(** The loop "MAIN PART": one CAM, and one precision when uncertainty is
    requested, per selected frame. *)
Fixpoint main_loop (class_idx : nat) (zeroing : Q) (cam_dims : Z * Z)
    (uncertainty_method : option string) (frames : list nat)
  : M (list Image * list (option (Q * string))) :=
  match frames with
  | [] => ret ([], [])
  | b_frame :: rest =>
      predictions <- attr predictions ;;
      scores <- lift (column3 predictions b_frame class_idx) ;;
      model_idx <- lift (argmax scores) ;;
      image_arr <- attr image_arr ;;
      in_img <- lift (getitem image_arr b_frame) ;;
      cam <- compute_cam in_img model_idx class_idx zeroing cam_dims ;;
      cam <- assign cam_dims cam ;;
      precision <-
        match uncertainty_method with
        | Some method =>
            p <- get_uncertainty model_idx in_img 10 method ;;
            ret [p]
        | None => ret []
        end ;;
      '(cams, precision_best_frames) <-
        main_loop class_idx zeroing cam_dims uncertainty_method rest ;;
      ret (cam :: cams, precision ++ precision_best_frames)
  end.

(** The loop of the output branch, for [j] from [j] on, [n] iterations. *)
Fixpoint compose_loop (n j : nat) (uncertainty_method : option string)
    (cam_dims : Z * Z) (best : list nat) (cams : list Image)
    (precision_best_frames : list (option (Q * string)))
    (copied_arr : list Image) : M (list Image) :=
  match n with
  | O => ret copied_arr
  | S n' =>
      b_frame <- lift (getitem best j) ;;
      cam <- lift (getitem cams j) ;;
      copied_arr <- lift (setitem copied_arr b_frame cam) ;;
      copied_arr <-
        match uncertainty_method with
        | Some _ =>
            cur <- lift (getitem copied_arr b_frame) ;;
            p <- lift (getitem precision_best_frames j) ;;
            match p with
            | Some (precision, _) =>
                x <- assign cam_dims (overlay_precision_gauge cur precision) ;;
                lift (setitem copied_arr b_frame x)
            | None => raise TypeError
            end
        | None => ret copied_arr
        end ;;
      compose_loop n' (S j) uncertainty_method cam_dims best cams
        precision_best_frames copied_arr
  end.

Fixpoint write_loop (frames : list Image) : M unit :=
  match frames with
  | [] => ret tt
  | x :: rest => emit (EvWrite (astype_uint8 x)) ;; write_loop rest
  end.

Definition is_some {A} (o : option A) : bool :=
  match o with Some _ => true | None => false end.

Definition dims_eqb (a b : Z * Z) : bool :=
  (fst a =? fst b)%Z && (snd a =? snd b)%Z.

Definition method_is (uncertainty_method : option string) (name : string) : bool :=
  match uncertainty_method with
  | Some m => String.eqb m name
  | None => false
  end.

(** The branch "Output" (from line 140 on): the array of CAMs, or [None]
when the video is written. *)
Definition output (save_video_path : option string)
    (uncertainty_method : option string) (cam_dims : Z * Z) (best : list nat)
    (cams : list Image) (precision_best_frames : list (option (Q * string)))
    (copied_arr : list Image) : M (option (list Image)) :=
  match save_video_path with
  | None => ret (Some cams)
  | Some path =>
      copied_arr <- compose_loop (length best) 0 uncertainty_method cam_dims
                      best cams precision_best_frames copied_arr ;;
      emit (EvVideoWriter (path ++ ".avi") 10 cam_dims) ;;
      write_loop copied_arr ;;
      emit EvRelease ;;
      ret None
  end.

(** [cam_important_frames] *)
Definition cam_important_frames (threshold : Q) (nr_cams : option Z) (zeroing : Q)
    (save_video_path : option string) (uncertainty_method : option string)
    (cam_dims : Z * Z) : M (option (list Image)) :=
  if is_some uncertainty_method && negb (dims_eqb cam_dims (1000, 1000)%Z) then
    raise ValueError
  else
    (if method_is uncertainty_method "epistemic" then make_dropout_evaluator
     else ret tt) ;;
    predictions <- attr predictions ;;
    let mean_preds := mean_axis0_3d predictions in
    class_idx <- lift (argmax (mean_axis0_2d mean_preds)) ;;
    scores <- lift (column mean_preds class_idx) ;;
    let best := best_frames np_argsort nr_cams threshold scores in
    emit (EvPrint (MsgPredClass class_idx best)) ;;
    image_arr <- attr image_arr ;;
    copied_arr <- resize_loop cam_dims 0 image_arr ;;
    '(cams, precision_best_frames) <-
      main_loop class_idx zeroing cam_dims uncertainty_method best ;;
    output save_video_path uncertainty_method cam_dims best cams
      precision_best_frames copied_arr.

End Methods.

(** ** Notions the properties are stated with *)

Section Notions.
Import Numpy.

Definition score (v : list Q) (i : nat) : Q := nth i v 0.

(** [out] is an ascending argsort of [v]: a permutation of the positions of
    [v] along which the values do not decrease.  This is what
    [np.argsort] promises whatever the kind of sort. *)
Definition is_argsort (v : list Q) (out : list nat) : Prop :=
  Permutation out (seq 0 (length v)) /\
  forall i j, (i <= j < length out)%nat ->
              score v (nth i out 0%nat) <= score v (nth j out 0%nat).

Fixpoint ascendingb (v : list Q) (out : list nat) : bool :=
  match out with
  | [] => true
  | i :: r =>
      match r with
      | [] => true
      | j :: _ => Qle_bool (score v i) (score v j) && ascendingb v r
      end
  end.

(** The same as a test. *)
Definition argsort_ok (v : list Q) (out : list nat) : bool :=
  (length out =? length v)%nat
  && forallb (fun i => existsb (Nat.eqb i) out) (seq 0 (length v))
  && ascendingb v out.

(** The last [k] entries of a list (all of them when there are fewer). *)
Definition last_k {A} (k : nat) (l : list A) : list A :=
  skipn (length l - k) l.

(** The stable ascending sort of the positions of [v]: positions are
    inserted in their original order, each after the entries that are not
    greater. *)
Fixpoint stable_insert (v : list Q) (x : nat) (l : list nat) : list nat :=
  match l with
  | [] => [x]
  | y :: r =>
      if Qltb (score v x) (score v y) then x :: y :: r
      else y :: stable_insert v x r
  end.

Definition stable_argsort (v : list Q) : list nat :=
  fold_left (fun acc x => stable_insert v x acc) (seq 0 (length v)) [].

(** [arr[m, f, c]] and the sum of these entries over the leading axis. *)
Definition entry2 (arr : list (list Q)) (f c : nat) : Q :=
  nth c (nth f arr []) 0.

Definition entry3 (arr : list (list (list Q))) (m f c : nat) : Q :=
  entry2 (nth m arr []) f c.

Definition sum_over_models (arr : list (list (list Q))) (f c : nat) : Q :=
  fold_right (fun m acc => entry2 m f c + acc) 0 arr.

(** [arr[f, c]], when both indices are in range. *)
Definition lookup2 (arr : list (list Q)) (f c : nat) : option Q :=
  match nth_error arr f with
  | Some row => nth_error row c
  | None => None
  end.


(** [i] is the first position of a maximum of [xs]. *)
Definition first_max (xs : list Q) (i : nat) : Prop :=
  (i < length xs)%nat /\
  (forall j, (j < length xs)%nat -> score xs j <= score xs i) /\
  (forall j, (j < i)%nat -> score xs j < score xs i).

End Notions.

Section Vocabulary.
Import Numpy.
Context {B : Backend}.

(** The instance after a video with at least one frame was evaluated by an
ensemble of [M] models over [C] classes. *)
Definition well_formed (s : VideoEvaluator) (imgs : list Frame)
    (preds : list (list (list Q))) (M F C : nat) : Prop :=
  image_arr s = Some imgs /\ predictions s = Some preds /\
  shape3 preds M F C /\ length imgs = F /\ length (models s) = M /\
  (1 <= M)%nat /\ (1 <= F)%nat /\ (1 <= C)%nat.

(** [class_idx] and [mean_preds[:, class_idx]] as [cam_important_frames]
computes them. *)
Definition class_index (preds : list (list (list Q))) : result nat :=
  argmax (mean_axis0_2d (mean_axis0_3d preds)).

Definition frame_scores (preds : list (list (list Q))) (class_idx : nat)
  : result (list Q) :=
  column (mean_axis0_3d preds) class_idx.

Definition known_method (method : string) : Prop :=
  method = "epistemic"%string \/ method = "aleatoric"%string.

(** The value [compute_cam] returns for a given ensemble member. *)
Definition cam_value (s : VideoEvaluator) (in_img : Frame) (model : Model)
    (class_idx : nat) (zeroing : Q) (out_size : Z * Z) : Image :=
  if contains "cam" (model_id (config s))
  then get_class_activation_map model in_img class_idx zeroing out_size
  else gradcam_explain in_img model class_idx "block5_conv3" zeroing 1 (1 # 4).

(** An event of [get_uncertainty]: an augmentation, a message, or an
inference that runs the ensemble member [model_idx]. *)
Definition uses_model (model_idx : nat) (e : event) : Prop :=
  match e with
  | EvInference _ m _ => m = model_idx
  | EvAugment _ | EvPrint _ => True
  | _ => False
  end.

(** What the main loop does for the selected frame [f]: the events [evs]
start with the CAM call on the ensemble member at the first maximum of
[predictions[:, f, class_idx]], every inference that follows uses the same
member, and the CAM stored for the frame is the map computed with that
member. *)
Definition frame_step (s : VideoEvaluator) (imgs : list Frame)
    (preds : list (list (list Q))) (class_idx : nat) (zeroing : Q)
    (dims : Z * Z) (f : nat) (step : list event * Image) : Prop :=
  exists in_img scores model_idx model rest,
    nth_error imgs f = Some in_img /\
    column3 preds f class_idx = Ok scores /\
    first_max scores model_idx /\
    nth_error (models s) model_idx = Some model /\
    fst step = EvCam in_img model_idx class_idx
                 (contains "cam" (model_id (config s))) :: rest /\
    Forall (uses_model model_idx) rest /\
    broadcast_to dims (cam_value s in_img model class_idx zeroing dims)
    = Some (snd step).


(** The external models answer a batch of [runs] images with [runs] rows of
between one and four logits, and [np.std] keeps the number of classes. *)
Definition logits_ok : Prop :=
  forall (model : Model) (inputs : list Frame) (r : Rng),
    (1 <= length inputs)%nat ->
    exists K, (1 <= K <= 4)%nat /\
      shape2 (fst (model_call model inputs r)) (length inputs) K /\
      length (np_std_axis0 (fst (model_call model inputs r))) = K.


(** The attributes that belong to the evaluated video and the ensemble are
the same in [s] and [s']. *)
Definition same_video_state (s s' : VideoEvaluator) : Prop :=
  config s' = config s /\ models s' = models s /\
  image_arr s' = image_arr s /\ predictions s' = predictions s.

(** A computation that leaves the attributes of the instance alone,
whatever its outcome. *)
Definition keeps_self {A} (m : M A) : Prop :=
  forall w w' r, m w = (w', r) -> self w' = self w.


(** The world after further events were logged. *)
Definition logged (w : world) (evs : list event) : world :=
  {| self := self w; rng := rng w; log := log w ++ evs |}.

(** Inside the main loop the uncertainty method, when it is a known one,
can be served: the models answer as expected and, for "epistemic", the
dropout evaluator holds one model per ensemble member. *)
Definition servable (s : VideoEvaluator) (M : nat)
    (uncertainty_method : option string) : Prop :=
  match uncertainty_method with
  | None => True
  | Some method =>
      known_method method ->
      logits_ok /\
      (method = "epistemic"%string ->
       exists dm, dropout_evaluator s = Some dm /\ length dm = M)
  end.

(** The world in which the main loop starts: the dropout evaluator was built
if the method is "epistemic", the selection was printed, every frame was
resized. *)
Definition prepared (uncertainty_method : option string) (w : world) : world :=
  if method_is uncertainty_method "epistemic"
  then fst (make_dropout_evaluator w) else w.

Definition preamble (class_idx : nat) (best : list nat) (dims : Z * Z)
    (F : nat) : list event :=
  EvPrint (MsgPredClass class_idx best)
  :: map (fun i => EvResize i dims) (seq 0 F).

(** [copied_arr] after the loop "Resize images". *)
Definition resized (dims : Z * Z) (imgs : list Frame) : list Image :=
  map (fun img => scale255_astype_int (cv2_resize img dims)) imgs.


(** An image that has the shape of the output array entries. *)
Definition fits (dims : Z * Z) (x : Image) : Prop :=
  broadcast_to dims x = Some x.

(** The collaborators return images of the output shape: the resized frames,
the activation maps, and the gauge overlay of an image of that shape. *)
Definition images_fit (s : VideoEvaluator) (dims : Z * Z) : Prop :=
  (forall img, fits dims (scale255_astype_int (cv2_resize img dims))) /\
  (forall img model class_idx zeroing,
     fits dims (cam_value s img model class_idx zeroing dims)) /\
  (forall x precision,
     fits dims x -> fits dims (overlay_precision_gauge x precision)).

End Vocabulary.

(** ** Concrete data used to instantiate the properties *)

Module Example.

(** Mean predictions of a four-frame video over two classes; frame 2 sits
exactly on the default threshold. *)
Definition mean_preds4 : list (list Q) :=
[[9 # 10; 1 # 10]; [1 # 5; 4 # 5]; [3 # 4; 1 # 4]; [19 # 25; 6 # 25]].

Definition scores4 : list Q := [9 # 10; 1 # 5; 3 # 4; 19 # 25].

(** Eighteen frames with the same score. *)
Definition tied18 : list Q := repeat (1 # 2) 18.

(** Eighteen frames, ties between several of them. *)
Definition scores18 : list Q :=
map (fun z => inject_Z z / 10)
  [5; 3; 9; 1; 1; 7; 3; 3; 2; 8; 0; 4; 6; 6; 5; 2; 9; 1]%Z.

(** A small backend: frames and models are numbers, images are terms that
record how they were made. *)
Inductive image : Type :=
| Resized (frame : nat) (dims : Z * Z)
| Scaled (x : image)
| ActivationMap (model frame class_idx : nat) (size : Z * Z)
| GradCam (model frame class_idx : nat)
| Gauge (x : image) (precision : Q)
| Uint8 (x : image).

(** Rows and columns of an image: [cv2.resize] is given (width, height), the
activation map has the requested size, Grad-CAM keeps the size of the input
frame. *)
Fixpoint shape (x : image) : Z * Z :=
match x with
| Resized _ (width, height) => (height, width)
| ActivationMap _ _ _ size => size
| GradCam _ _ _ => (224, 224)%Z
| Scaled x | Gauge x _ | Uint8 x => shape x
end.

(** Class probabilities of the two models for the four frames. *)
Definition table (model : nat) : list (list Q) :=
match model with
| O => [[9 # 10; 1 # 10]; [1 # 5; 4 # 5]; [7 # 10; 3 # 10]; [4 # 5; 1 # 5]]
| _ => [[9 # 10; 1 # 10]; [1 # 5; 4 # 5]; [4 # 5; 1 # 5]; [18 # 25; 7 # 25]]
end.

Definition backend : Backend := {|
  Raw := nat;
  Frame := nat;
  Image := image;
  Model := nat;
  Rng := nat;
  video_capture := fun path =>
    if String.eqb path "video.mp4" then Some [0; 1; 2; 3]%nat else None;
  preprocess := fun raw => raw;
  predict := fun model frames => map (fun f => nth f (table model) []) frames;
  model_call := fun model inputs r =>
    (map (fun _ => [1 # 2; 1 # 3; 1 # 6]) inputs, S r);
  Evaluator_models := fun _ mc_dropout =>
    if mc_dropout then [10; 11]%nat else [0; 1]%nat;
  augmentor_flow_next := fun image r => ((image + 100 * S r)%nat, S r);
  astype_float32 := fun image => image;
  get_class_activation_map := fun model img class_idx _ size =>
    ActivationMap model img class_idx size;
  gradcam_explain := fun img model class_idx _ _ _ _ =>
    GradCam model img class_idx;
  cv2_resize := Resized;
  scale255_astype_int := Scaled;
  astype_uint8 := Uint8;
  broadcast_to := fun dims x =>
    if dims_eqb (shape x) dims then Some x else None;
  overlay_precision_gauge := Gauge;
  confidence_to_precision := fun std => 1 - std;
  np_std_axis0 := fun logits => map (fun _ => 0) (hd [] logits);
  np_argsort := Npysort.argsort
|}.

Definition evaluator0 : @VideoEvaluator backend :=
@Build_VideoEvaluator backend
  {| weights_dir := "trained_models"; ensemble := true;
     split := None; model_id := "vgg_cam"; num_classes := 3 |}
  [0; 1]%nat None None None.

(** A fresh instance, and the instance after the video was evaluated. *)
Definition world0 : @world backend :=
@Build_world backend evaluator0 0%nat [].

Definition world1 : @world backend :=
fst (@__call__ backend "video.mp4" world0).

Definition preds1 : list (list (list Q)) := [table 0; table 1].

(** An instance whose ensemble is empty. *)
Definition world_no_models : @world backend :=
@Build_world backend
  (@Build_VideoEvaluator backend
     {| weights_dir := "trained_models"; ensemble := true;
        split := None; model_id := "vgg_base"; num_classes := 3 |}
     [] None None None) 0%nat [].

Definition frames1 : list nat := [0; 1; 2; 3]%nat.

(** [mean_preds[:, 0]] of the evaluated video; class 0 is the predicted
class. *)
Definition scores1 : list Q :=
match Numpy.column (Numpy.mean_axis0_3d preds1) 0 with
| Ok scores => scores
| Raise _ => []
end.

End Example.

(** * Properties *)

Section NumpyFacts.
Import Numpy.

Lemma Qltb_lt (a b : Q) : Qltb a b = true <-> a < b.
Proof.
  unfold Qltb. rewrite negb_true_iff. split; intro H.
  - apply Qnot_le_lt. intro Hle. apply Qle_bool_iff in Hle. congruence.
  - destruct (Qle_bool b a) eqn:E; [|reflexivity].
    apply Qle_bool_iff in E. exfalso. exact (Qlt_not_le _ _ H E).
Qed.

Lemma Qltb_ge (a b : Q) : Qltb a b = false <-> b <= a.
Proof.
  unfold Qltb. rewrite negb_false_iff. apply Qle_bool_iff.
Qed.

Lemma getitem_Ok {A} (arr : list A) (i : nat) (x : A) :
  getitem arr i = Ok x <-> nth_error arr i = Some x.
Proof.
  unfold getitem. destruct (nth_error arr i); split; congruence.
Qed.

Lemma getitem_lt {A} (arr : list A) (i : nat) :
  (i < length arr)%nat -> exists x, getitem arr i = Ok x.
Proof.
  intro H. unfold getitem.
  destruct (nth_error arr i) eqn:E; eauto.
  apply nth_error_None in E. lia.
Qed.

Lemma where_from_In (mask : list bool) :
  forall i f, In f (where_from i mask) <->
              (i <= f)%nat /\ nth_error mask (f - i) = Some true.
Proof.
  induction mask as [|b m IH]; intros i f; simpl.
  - split; [tauto|]. intros [_ H]. destruct (f - i)%nat; discriminate.
  - assert (Hstep : In f (where_from (S i) m) <->
                    (i < f)%nat /\ nth_error (b :: m) (f - i) = Some true).
    { rewrite IH. split; intros [Hle Hn]; split; try lia.
      - replace (f - i)%nat with (S (f - S i)) by lia. exact Hn.
      - replace (f - i)%nat with (S (f - S i)) in Hn by lia. exact Hn. }
    destruct b; simpl; rewrite Hstep.
    + split.
      * intros [<-|[Hlt Hn]]; [|split; [lia|exact Hn]].
        split; [lia|]. now rewrite Nat.sub_diag.
      * intros [Hle Hn]. destruct (Nat.eq_dec i f) as [->|Hne]; [now left|].
        right. split; [lia|exact Hn].
    + split.
      * intros [Hlt Hn]. split; [lia|exact Hn].
      * intros [Hle Hn]. destruct (Nat.eq_dec i f) as [->|Hne].
        -- rewrite Nat.sub_diag in Hn. discriminate.
        -- split; [lia|exact Hn].
Qed.

Lemma np_where_greater (scores : list Q) (thr : Q) (f : nat) :
  In f (np_where (greater scores thr)) <->
  exists v, nth_error scores f = Some v /\ thr < v.
Proof.
  unfold np_where, greater. rewrite where_from_In, Nat.sub_0_r.
  rewrite nth_error_map. split.
  - intros [_ H]. destruct (nth_error scores f) as [v|]; [|discriminate].
    exists v. split; [reflexivity|]. apply Qltb_lt. now inversion H.
  - intros [v [-> Hv]]. split; [lia|]. simpl. f_equal. now apply Qltb_lt.
Qed.

Lemma column_nth (arr : list (list Q)) (c : nat) :
  forall scores, column arr c = Ok scores ->
    length scores = length arr /\
    forall f v, nth_error scores f = Some v <->
                exists row, nth_error arr f = Some row /\ nth_error row c = Some v.
Proof.
  induction arr as [|r rest IH]; intros scores H; simpl in H.
  - inversion H; subst. split; [reflexivity|]. intros f v.
    split; [destruct f; discriminate|]. intros [row [Hr _]].
    destruct f; discriminate.
  - destruct (getitem r c) as [x|e] eqn:Ex; [|discriminate].
    destruct (column rest c) as [xs|e]; [|discriminate].
    inversion H; subst. destruct (IH xs eq_refl) as [Hlen Hnth].
    split; [simpl; congruence|]. intros [|f] v; simpl.
    + apply getitem_Ok in Ex. split.
      * intros [= <-]. eauto.
      * intros [row [[= <-] Hv]]. congruence.
    + apply Hnth.
Qed.

End NumpyFacts.

(** ** Frame selection *)

Section SelectionFacts.
Import Numpy.

Lemma slice_from_zero {A} (l : list A) : slice_from (- 0) l = l.
Proof.
  unfold slice_from. simpl.
  destruct (Z.of_nat (length l) <? 0)%Z eqn:E; [apply Z.ltb_lt in E; lia|].
  reflexivity.
Qed.

Lemma slice_from_last_k {A} (k : Z) (l : list A) :
  (1 <= k)%Z -> slice_from (- k) l = last_k (Z.to_nat k) l.
Proof.
  intro Hk. unfold slice_from, last_k.
  destruct (- k <? 0)%Z eqn:E1; [|apply Z.ltb_ge in E1; lia].
  destruct (- k + Z.of_nat (length l) <? 0)%Z eqn:E2.
  - apply Z.ltb_lt in E2. f_equal. simpl. lia.
  - apply Z.ltb_ge in E2. f_equal. lia.
Qed.

Lemma last_k_length {A} (k : nat) (l : list A) :
  length (last_k k l) = Nat.min k (length l).
Proof. unfold last_k. rewrite length_skipn. lia. Qed.

Lemma is_argsort_length v out : is_argsort v out -> length out = length v.
Proof.
  intros [Hp _]. apply Permutation_length in Hp. now rewrite length_seq in Hp.
Qed.

Lemma is_argsort_In v out f :
  is_argsort v out -> (In f out <-> (f < length v)%nat).
Proof.
  intros [Hp _]. split; intro H.
  - apply (Permutation_in _ Hp) in H. apply in_seq in H. lia.
  - apply (Permutation_in _ (Permutation_sym Hp)). apply in_seq. lia.
Qed.

Lemma is_argsort_NoDup v out : is_argsort v out -> NoDup out.
Proof.
  intros [Hp _]. apply (Permutation_NoDup (Permutation_sym Hp)), seq_NoDup.
Qed.

Lemma ascendingb_nth v out :
  ascendingb v out = true ->
  forall i j, (i <= j < length out)%nat ->
              score v (nth i out 0%nat) <= score v (nth j out 0%nat).
Proof.
  induction out as [|a r IH]; intros H i j Hij; [simpl in Hij; lia|].
  assert (Hr : ascendingb v r = true).
  { simpl in H. destruct r; [reflexivity|].
    apply andb_true_iff in H. tauto. }
  assert (Hhd : forall j, (j < length (a :: r))%nat ->
                          score v a <= score v (nth j (a :: r) 0%nat)).
  { clear i j Hij. intros j. revert a H Hr IH.
    induction j as [|j IHj]; intros a H Hr IH Hj; [apply Qle_refl|].
    destruct r as [|b r']; [simpl in Hj; lia|].
    simpl in H. apply andb_true_iff in H. destruct H as [Hab Hrest].
    apply Qle_bool_iff in Hab. apply Qle_trans with (score v b); [exact Hab|].
    change (nth (S j) (a :: b :: r') 0%nat) with (nth j (b :: r') 0%nat).
    apply (IH Hr 0%nat j). simpl in *. lia. }
  destruct i as [|i].
  - apply Hhd. lia.
  - destruct j as [|j]; [lia|]. simpl. apply IH; [exact Hr|]. simpl in Hij. lia.
Qed.

(** The test [argsort_ok] is sound for [is_argsort]. *)
Lemma argsort_ok_sound v out : argsort_ok v out = true -> is_argsort v out.
Proof.
  unfold argsort_ok. intro H.
  apply andb_true_iff in H. destruct H as [H Hasc].
  apply andb_true_iff in H. destruct H as [Hlen Hall].
  apply Nat.eqb_eq in Hlen. split; [|now apply ascendingb_nth].
  apply Permutation_sym, NoDup_Permutation_bis.
  - apply seq_NoDup.
  - rewrite length_seq. lia.
  - intros x Hx. rewrite forallb_forall in Hall. specialize (Hall x Hx).
    apply existsb_exists in Hall. destruct Hall as [y [Hy Heq]].
    apply Nat.eqb_eq in Heq. now subst.
Qed.

(** For a count of at least one, top-k selection yields [min k F]
    indices. *)
Lemma top_k_length argsort thr (scores : list Q) (k : Z) :
  length (argsort scores) = length scores -> (1 <= k)%Z ->
  length (best_frames argsort (Some k) thr scores)
  = Nat.min (Z.to_nat k) (length scores).
Proof.
  intros Hlen Hk. simpl. rewrite slice_from_last_k by exact Hk.
  now rewrite last_k_length, Hlen.
Qed.

Lemma last_k_split {A} (k : nat) (l : list A) :
  l = firstn (length l - k) l ++ last_k k l.
Proof. unfold last_k. now rewrite firstn_skipn. Qed.

End SelectionFacts.

(** ** Claims on frame selection *)

Section SelectionClaims.
Import Numpy.

(** C1: in threshold mode ([nr_cams] is [None]) a frame index [f] is
selected if and only if [mean_preds[f, class_idx]] is strictly greater than
the threshold; a frame whose mean prediction equals the threshold is not
selected. *)
Theorem threshold_selects_strictly_above
  (argsort : list Q -> list nat) (mean_preds : list (list Q))
  (class_idx : nat) (threshold : Q) (scores : list Q) :
  column mean_preds class_idx = Ok scores ->
  forall f,
    (In f (best_frames argsort None threshold scores) <->
     exists v, lookup2 mean_preds f class_idx = Some v /\ threshold < v)
    /\ (forall v, lookup2 mean_preds f class_idx = Some v -> v == threshold ->
                  ~ In f (best_frames argsort None threshold scores)).
Proof.
intros Hcol f. destruct (column_nth _ _ _ Hcol) as [_ Hnth].
assert (Hiff : In f (best_frames argsort None threshold scores) <->
               exists v, lookup2 mean_preds f class_idx = Some v /\ threshold < v).
{ simpl. rewrite np_where_greater. unfold lookup2. split.
  - intros [v [Hv Hlt]]. exists v. split; [|exact Hlt].
    apply Hnth in Hv. destruct Hv as [row [-> Hrow]]. exact Hrow.
  - intros [v [Hv Hlt]]. exists v. split; [|exact Hlt].
    apply Hnth. destruct (nth_error mean_preds f) as [row|]; [|discriminate].
    eauto. }
split; [exact Hiff|].
intros v Hv Heq Hin. apply Hiff in Hin. destruct Hin as [v' [Hv' Hlt]].
rewrite Hv in Hv'. inversion Hv'; subst v'.
rewrite Heq in Hlt. exact (Qlt_irrefl _ Hlt).
Qed.

Lemma threshold_selects_strictly_above_witness :
  column Example.mean_preds4 0 = Ok Example.scores4 /\
  (In 3%nat (best_frames Npysort.argsort None (3 # 4) Example.scores4) <->
   exists v, lookup2 Example.mean_preds4 3 0 = Some v /\ 3 # 4 < v) /\
  ~ In 2%nat (best_frames Npysort.argsort None (3 # 4) Example.scores4).
Proof.
pose proof (threshold_selects_strictly_above Npysort.argsort
              Example.mean_preds4 0 (3 # 4) Example.scores4 eq_refl) as H.
split; [reflexivity|]. split.
- exact (proj1 (H 3%nat)).
- apply (proj2 (H 2%nat) (3 # 4)); reflexivity.
Defined.

(** C2 (the count zero): [arr[-0:]] is the whole array, so with
[nr_cams = 0] the selection is the complete argsort output, one index per
frame, and not the empty set. *)
Theorem top_k_zero_selects_every_frame
  (argsort : list Q -> list nat) (threshold : Q) (scores : list Q) :
  best_frames argsort (Some 0%Z) threshold scores = argsort scores.
Proof. simpl. change (- 0)%Z with 0%Z. apply (slice_from_zero (argsort scores)). Qed.

Example top_k_zero_on_four_frames :
  best_frames Npysort.argsort (Some 0%Z) (3 # 4) Example.scores4
  = [1; 2; 3; 0]%nat.
Proof. reflexivity. Qed.

(** C3 as stated fails: on eighteen frames with equal scores the default
argsort returns an ascending permutation in which ties do not keep their
frame order, and the three selected frames are 1, 16, 17 where a stable
sort would give 15, 16, 17. *)
Lemma top_k_ties_not_stable :
  is_argsort Example.tied18 (Npysort.argsort Example.tied18) /\
  best_frames Npysort.argsort (Some 3%Z) (3 # 4) Example.tied18
  = [1; 16; 17]%nat /\
  last_k 3 (stable_argsort Example.tied18) = [15; 16; 17]%nat /\
  best_frames Npysort.argsort (Some 3%Z) (3 # 4) Example.tied18
  <> last_k 3 (stable_argsort Example.tied18).
Proof.
split; [apply argsort_ok_sound; vm_compute; reflexivity|].
split; [vm_compute; reflexivity|].
split; [vm_compute; reflexivity|].
vm_compute. discriminate.
Qed.

(** C3, amended: in top-k mode with a count of at least one, the selected
indices are the last [k] positions of the ascending argsort of
[mean_preds[:, class_idx]]: distinct valid frame indices, listed by
non-decreasing score, each scoring at least as high as every frame that is
not selected.  Which of several frames tied at the boundary is selected is
left to the sort. *)
Theorem top_k_selects_last_of_ascending_sort
  (argsort : list Q -> list nat) (threshold : Q) (scores : list Q) (k : Z) :
  is_argsort scores (argsort scores) -> (1 <= k)%Z ->
  let sel := best_frames argsort (Some k) threshold scores in
  sel = last_k (Z.to_nat k) (argsort scores)
  /\ NoDup sel
  /\ (forall f, In f sel -> (f < length scores)%nat)
  /\ (forall i j, (i <= j < length sel)%nat ->
                  score scores (nth i sel 0%nat) <= score scores (nth j sel 0%nat))
  /\ (forall f g, In f sel -> (g < length scores)%nat -> ~ In g sel ->
                  score scores g <= score scores f).
Proof.
intros Hsort Hk sel.
assert (Hsel : sel = last_k (Z.to_nat k) (argsort scores)).
{ unfold sel. simpl. now apply slice_from_last_k. }
set (out := argsort scores) in *. set (n := Z.to_nat k) in *.
pose proof (last_k_split n out) as Hsplit. rewrite <- Hsel in Hsplit.
set (s := (length out - n)%nat) in *.
assert (Hnth : forall j, nth j sel 0%nat = nth (s + j) out 0%nat).
{ intro j. rewrite Hsel. unfold last_k. apply nth_skipn. }
assert (Hlen : (length sel + s = length out)%nat).
{ rewrite Hsel, last_k_length. unfold s. lia. }
split; [exact Hsel|]. split; [|split; [|split]].
- pose proof (is_argsort_NoDup _ _ Hsort) as Hnd. fold out in Hnd.
  rewrite Hsplit in Hnd. exact (NoDup_app_remove_l _ _ Hnd).
- intros f Hf. apply (is_argsort_In _ _ f Hsort). fold out.
  rewrite Hsplit. apply in_or_app. now right.
- intros i j Hij. rewrite !Hnth. apply (proj2 Hsort). fold out. lia.
- intros f g Hf Hg Hng.
  apply (is_argsort_In _ _ g Hsort) in Hg. fold out in Hg.
  rewrite Hsplit in Hg. apply in_app_or in Hg. destruct Hg as [Hg|Hg]; [|tauto].
  destruct (In_nth _ _ 0%nat Hg) as [i [Hi Hgi]].
  destruct (In_nth _ _ 0%nat Hf) as [j [Hj Hfj]].
  rewrite length_firstn in Hi.
  rewrite nth_firstn in Hgi.
  destruct (i <? s)%nat eqn:E; [|apply Nat.ltb_ge in E; lia].
  rewrite <- Hgi, <- Hfj, Hnth. apply (proj2 Hsort). fold out. lia.
Qed.

Lemma top_k_selects_last_of_ascending_sort_witness :
  let sel := best_frames Npysort.argsort (Some 3%Z) (3 # 4) Example.scores18 in
  sel = last_k 3 (Npysort.argsort Example.scores18)
  /\ NoDup sel
  /\ (forall f, In f sel -> (f < 18)%nat)
  /\ (forall i j, (i <= j < length sel)%nat ->
        score Example.scores18 (nth i sel 0%nat)
        <= score Example.scores18 (nth j sel 0%nat))
  /\ (forall f g, In f sel -> (g < 18)%nat -> ~ In g sel ->
        score Example.scores18 g <= score Example.scores18 f).
Proof.
apply (top_k_selects_last_of_ascending_sort Npysort.argsort (3 # 4)
         Example.scores18 3).
- apply argsort_ok_sound. vm_compute. reflexivity.
- lia.
Defined.

End SelectionClaims.

(** ** The mean over the model axis *)

Section MeanFacts.
Import Numpy.

Lemma add1_length (a b : list Q) :
  length a = length b -> length (add1 a b) = length a.
Proof.
revert b. induction a as [|x a IH]; intros [|y b] H; simpl in *; try lia.
now rewrite IH by lia.
Qed.

Lemma add1_nth (a b : list Q) (c : nat) :
  length a = length b -> nth c (add1 a b) 0 == nth c a 0 + nth c b 0.
Proof.
revert b c. induction a as [|x a IH]; intros [|y b] c H; simpl in *; try lia.
- destruct c; reflexivity.
- destruct c as [|c]; [reflexivity|]. apply IH. lia.
Qed.

Lemma add2_shape (a b : list (list Q)) (F C : nat) :
  shape2 a F C -> shape2 b F C -> shape2 (add2 a b) F C.
Proof.
revert b F. induction a as [|x a IH]; intros [|y b] F [Hla Ha] [Hlb Hb];
  simpl in *; subst; try discriminate.
- split; [reflexivity|constructor].
- inversion Ha; subst. inversion Hb; subst.
  destruct (IH b (length a)) as [Hl Hf]; [now split|split; [lia|assumption]|].
  split; [simpl; congruence|]. constructor; [|exact Hf].
  rewrite add1_length; congruence.
Qed.

Lemma add2_entry (a b : list (list Q)) (F C f c : nat) :
  shape2 a F C -> shape2 b F C ->
  entry2 (add2 a b) f c == entry2 a f c + entry2 b f c.
Proof.
unfold entry2. revert b F f.
induction a as [|x a IH]; intros [|y b] F f [Hla Ha] [Hlb Hb];
  simpl in *; subst; try discriminate.
- destruct f; destruct c; reflexivity.
- inversion Ha; subst. inversion Hb; subst. destruct f as [|f].
  + apply add1_nth. congruence.
  + apply (IH b (length a)); [now split|split; [lia|assumption]].
Qed.

Lemma fold_add2_shape (rest : list (list (list Q))) (F C : nat) :
  forall acc, shape2 acc F C -> Forall (fun m => shape2 m F C) rest ->
              shape2 (fold_left add2 rest acc) F C.
Proof.
induction rest as [|m rest IH]; intros acc Hacc Hrest; simpl; [exact Hacc|].
inversion Hrest; subst. apply IH; [|assumption]. now apply add2_shape.
Qed.

Lemma fold_add2_entry (rest : list (list (list Q))) (F C f c : nat) :
  forall acc, shape2 acc F C -> Forall (fun m => shape2 m F C) rest ->
    entry2 (fold_left add2 rest acc) f c
    == entry2 acc f c + sum_over_models rest f c.
Proof.
induction rest as [|m rest IH]; intros acc Hacc Hrest; simpl.
- now rewrite Qplus_0_r.
- inversion Hrest; subst. rewrite IH; [|now apply add2_shape|assumption].
  rewrite (add2_entry acc m F C) by assumption. now rewrite Qplus_assoc.
Qed.

Lemma map_map_shape (g : Q -> Q) (a : list (list Q)) (F C : nat) :
  shape2 a F C -> shape2 (map (map g) a) F C.
Proof.
intros [Hl Hf]. split; [now rewrite length_map|].
apply Forall_map. eapply Forall_impl; [|exact Hf].
intros row Hrow. simpl. now rewrite length_map.
Qed.

Lemma map_map_entry (g : Q -> Q) (a : list (list Q)) (F C f c : nat) :
  shape2 a F C -> (f < F)%nat -> (c < C)%nat ->
  entry2 (map (map g) a) f c = g (entry2 a f c).
Proof.
intros [Hl Hf] Hlt Hc. unfold entry2.
assert (Hrow : exists row, nth_error a f = Some row).
{ destruct (nth_error a f) eqn:E; eauto. apply nth_error_None in E. lia. }
destruct Hrow as [row Hrow].
assert (Hlen : length row = C).
{ rewrite Forall_forall in Hf. apply Hf. eapply nth_error_In; eauto. }
rewrite (nth_error_nth _ _ [] (map_nth_error (map g) _ _ Hrow)).
rewrite (nth_error_nth _ _ [] Hrow).
assert (Hx : exists x, nth_error row c = Some x).
{ destruct (nth_error row c) eqn:E; eauto. apply nth_error_None in E. lia. }
destruct Hx as [x Hx].
rewrite (nth_error_nth _ _ 0 (map_nth_error g _ _ Hx)).
now rewrite (nth_error_nth _ _ 0 Hx).
Qed.

(** The mean along the leading axis of an array of shape (M, F, C) with
[M >= 1] has shape (F, C) and holds the element-wise means. *)
Lemma mean_axis0_3d_spec (preds : list (list (list Q))) (M F C : nat) :
  shape3 preds M F C -> (1 <= M)%nat ->
  shape2 (mean_axis0_3d preds) F C /\
  forall f c, (f < F)%nat -> (c < C)%nat ->
    entry2 (mean_axis0_3d preds) f c
    == sum_over_models preds f c / inject_Z (Z.of_nat M).
Proof.
intros [Hlen Hall] HM. destruct preds as [|m rest]; [simpl in Hlen; lia|].
inversion Hall; subst. unfold mean_axis0_3d, sum_axis0_3d.
pose proof (fold_add2_shape rest F C m H1 H2) as Hshape.
split; [now apply map_map_shape|].
intros f c Hf Hc. rewrite (map_map_entry _ _ F C) by assumption.
unfold count. rewrite (fold_add2_entry rest F C f c m H1 H2).
reflexivity.
Qed.



End MeanFacts.

(** ** Claims on the evaluator *)

Section EvaluatorClaims.
Import Numpy.
Context {B : Backend}.


End EvaluatorClaims.


(** ** The monad and the array primitives *)

Section MonadFacts.
Import Numpy.
Context {B : Backend}.

Lemma bind_Ok {A C} (m : M A) (k : A -> M C) w w' c :
  bind m k w = (w', Ok c) ->
  exists w1 a, m w = (w1, Ok a) /\ k a w1 = (w', Ok c).
Proof.
unfold bind. destruct (m w) as [w1 [a|e]]; intro H; [eauto|discriminate].
Qed.

Lemma bind_eq {A C} (m : M A) (k : A -> M C) w w1 a :
  m w = (w1, Ok a) -> bind m k w = k a w1.
Proof. unfold bind. now intros ->. Qed.

Lemma bind_Raise {A C} (m : M A) (k : A -> M C) w w1 e :
  m w = (w1, Raise e) -> bind m k w = (w1, Raise e).
Proof. unfold bind. now intros ->. Qed.

Lemma lift_Ok {A} (r : result A) w w' a :
  lift r w = (w', Ok a) -> w' = w /\ r = Ok a.
Proof. unfold lift. intros [= -> ->]. auto. Qed.

Lemma attr_Ok {A} (field : VideoEvaluator -> option A) w w' a :
  attr field w = (w', Ok a) -> w' = w /\ field (self w) = Some a.
Proof.
unfold attr. destruct (field (self w)); intros [= -> ]; subst; auto.
Qed.

Lemma attr_eq {A} (field : VideoEvaluator -> option A) w a :
  field (self w) = Some a -> attr field w = (w, Ok a).
Proof. unfold attr. now intros ->. Qed.

Lemma setitem_spec {A} (arr : list A) :
  forall i x arr', setitem arr i x = Ok arr' ->
    length arr' = length arr /\ nth_error arr' i = Some x /\
    forall p, p <> i -> nth_error arr' p = nth_error arr p.
Proof.
induction arr as [|y r IH]; intros i x arr' H; simpl in H; [discriminate|].
destruct i as [|i].
- inversion H; subst. repeat split. intros [|p] Hp; [lia|reflexivity].
- destruct (setitem r i x) as [r'|e] eqn:E; [|discriminate].
  inversion H; subst. destruct (IH i x r' E) as (Hl & Hn & Ho).
  repeat split; simpl; [congruence|exact Hn|].
  intros [|p] Hp; [reflexivity|]. apply Ho. lia.
Qed.

Lemma setitem_lt {A} (arr : list A) :
  forall i x, (i < length arr)%nat -> exists arr', setitem arr i x = Ok arr'.
Proof.
induction arr as [|y r IH]; intros i x Hi; simpl in Hi; [lia|].
destruct i as [|i]; simpl; [eauto|].
destruct (IH i x) as [r' ->]; [lia|]. eauto.
Qed.

Lemma argmax_from_spec (xs : list Q) :
  forall (pre : list Q) best_i best,
    (best_i < length pre)%nat -> score pre best_i = best ->
    (forall j, (j < length pre)%nat -> score pre j <= best) ->
    (forall j, (j < best_i)%nat -> score pre j < best) ->
    first_max (pre ++ xs) (argmax_from best_i best (length pre) xs).
Proof.
unfold score.
induction xs as [|x r IH]; intros pre best_i best Hbi Hbest Hmax Hfirst; simpl.
- rewrite app_nil_r. unfold first_max, score. subst best. repeat split; auto.
- assert (Hlen : length (pre ++ [x]) = S (length pre))
    by (rewrite length_app; simpl; lia).
  replace (pre ++ x :: r) with ((pre ++ [x]) ++ r)
    by (rewrite <- app_assoc; reflexivity).
  destruct (Qltb best x) eqn:E.
  + apply Qltb_lt in E. rewrite <- Hlen. apply IH.
    * lia.
    * rewrite app_nth2, Nat.sub_diag by lia. reflexivity.
    * intros j Hj. destruct (Nat.eq_dec j (length pre)) as [->|Hne].
      -- rewrite app_nth2, Nat.sub_diag by lia. apply Qle_refl.
      -- rewrite app_nth1 by lia. apply Qle_trans with best.
         ++ apply Hmax. lia.
         ++ now apply Qlt_le_weak.
    * intros j Hj. rewrite app_nth1 by lia.
      apply Qle_lt_trans with best; [apply Hmax; lia|exact E].
  + apply Qltb_ge in E. rewrite <- Hlen. apply IH.
    * lia.
    * rewrite app_nth1 by lia. exact Hbest.
    * intros j Hj. destruct (Nat.eq_dec j (length pre)) as [->|Hne].
      -- rewrite app_nth2, Nat.sub_diag by lia. exact E.
      -- rewrite app_nth1 by lia. apply Hmax. lia.
    * intros j Hj. rewrite app_nth1 by lia. now apply Hfirst.
Qed.

(** [np.argmax] returns the first position of a maximum. *)
Lemma argmax_first_max (xs : list Q) (i : nat) :
  argmax xs = Ok i -> first_max xs i.
Proof.
destruct xs as [|x r]; simpl; [discriminate|]. intros [= <-].
apply (argmax_from_spec r [x] 0%nat x); simpl; auto; try lia.
- intros [|j] Hj; [apply Qle_refl|lia].
Qed.

Lemma argmax_total (xs : list Q) :
  (1 <= length xs)%nat -> exists i, argmax xs = Ok i.
Proof. destruct xs; simpl; [lia|eauto]. Qed.

End MonadFacts.

(** ** Shapes *)

Section ShapeFacts.
Import Numpy.

Lemma fold_add1_length (rest : list (list Q)) (C : nat) :
  forall acc, length acc = C -> Forall (fun row => length row = C) rest ->
              length (fold_left add1 rest acc) = C.
Proof.
induction rest as [|r rest IH]; intros acc Hacc Hrest; simpl; [exact Hacc|].
inversion Hrest; subst. apply IH; [|assumption].
rewrite add1_length; congruence.
Qed.

Lemma mean_axis0_2d_length (arr : list (list Q)) (F C : nat) :
  shape2 arr F C -> (1 <= F)%nat -> length (mean_axis0_2d arr) = C.
Proof.
intros [Hlen Hall] HF. destruct arr as [|r rest]; [simpl in Hlen; lia|].
inversion Hall; subst. unfold mean_axis0_2d, sum_axis0_2d.
rewrite length_map. now apply fold_add1_length.
Qed.

Lemma column_total (arr : list (list Q)) (F C c : nat) :
  shape2 arr F C -> (c < C)%nat ->
  exists scores, column arr c = Ok scores /\ length scores = F.
Proof.
intros [Hlen Hall] Hc. subst F.
induction arr as [|r rest IH]; simpl.
- exists []. auto.
- inversion Hall; subst. destruct (getitem_lt r c) as [x ->]; [lia|].
  destruct (IH H2) as [xs [-> Hxs]]. exists (x :: xs). simpl. auto.
Qed.

Lemma column3_total (arr : list (list (list Q))) (M F C f c : nat) :
  shape3 arr M F C -> (f < F)%nat -> (c < C)%nat ->
  exists scores, column3 arr f c = Ok scores /\ length scores = M.
Proof.
intros [Hlen Hall] Hf Hc. subst M.
induction arr as [|m rest IH]; simpl.
- exists []. auto.
- inversion Hall as [|? ? [Hm1 Hm2] Hrest]; subst.
  destruct (getitem_lt m f) as [row Hrow]; [lia|]. rewrite Hrow.
  assert (Hr : length row = C).
  { rewrite Forall_forall in Hm2. apply Hm2.
    apply getitem_Ok in Hrow. eapply nth_error_In; eauto. }
  destruct (getitem_lt row c) as [x ->]; [lia|].
  destruct (IH Hrest) as [xs [-> Hxs]]. exists (x :: xs). simpl. auto.
Qed.

Lemma repeat_as_map {A} (x : A) (n : nat) :
  forall start, map (fun _ => x) (seq start n) = repeat x n.
Proof. induction n as [|n IH]; intro start; simpl; [|rewrite IH]; reflexivity. Qed.

Lemma skipn_In {A} (n : nat) (l : list A) (x : A) : In x (skipn n l) -> In x l.
Proof.
intro H. rewrite <- (firstn_skipn n l). apply in_or_app. now right.
Qed.

Lemma skipn_NoDup {A} (n : nat) (l : list A) : NoDup l -> NoDup (skipn n l).
Proof.
intro H. rewrite <- (firstn_skipn n l) in H. exact (NoDup_app_remove_l _ _ H).
Qed.

Lemma where_from_NoDup (mask : list bool) :
  forall i, NoDup (where_from i mask).
Proof.
induction mask as [|b m IH]; intro i; simpl; [constructor|].
destruct b; [|apply IH]. constructor; [|apply IH].
intro H. apply where_from_In in H. lia.
Qed.

(** Whatever the mode, the selected indices are distinct positions of the
score array, provided the argsort output is an ascending permutation. *)
Lemma best_frames_valid argsort nr_cams thr (scores : list Q) :
  (nr_cams <> None -> is_argsort scores (argsort scores)) ->
  NoDup (best_frames argsort nr_cams thr scores) /\
  forall f, In f (best_frames argsort nr_cams thr scores) ->
            (f < length scores)%nat.
Proof.
intro H. destruct nr_cams as [k|]; simpl.
- assert (Hs : is_argsort scores (argsort scores)) by (apply H; discriminate).
  unfold slice_from. split.
  + apply skipn_NoDup. eapply is_argsort_NoDup; eauto.
  + intros f Hf. apply skipn_In in Hf. now apply (is_argsort_In _ _ f Hs).
- split; [apply where_from_NoDup|]. intros f Hf.
  apply np_where_greater in Hf. destruct Hf as [v [Hv _]].
  apply nth_error_Some. congruence.
Qed.

End ShapeFacts.

(** ** The methods called per frame *)

Section FrameFacts.
Import Numpy.
Context {B : Backend}.

Lemma emit_eq (e : event) (w : world) : emit e w = (logged w [e], Ok tt).
Proof. reflexivity. Qed.

Lemma logged_logged (w : world) (a b : list event) :
  logged (logged w a) b = logged w (a ++ b).
Proof. unfold logged. simpl. now rewrite app_assoc. Qed.

Lemma compute_cam_eq in_img model_idx class_idx zeroing out_size (w : world) :
  compute_cam in_img model_idx class_idx zeroing out_size w
  = match nth_error (models (self w)) model_idx with
    | Some model =>
        (logged w [EvCam in_img model_idx class_idx
                     (contains "cam" (model_id (config (self w))))],
         Ok (cam_value (self w) in_img model class_idx zeroing out_size))
    | None => (w, Raise IndexError)
    end.
Proof.
unfold compute_cam, cam_value, bind, get_self, lift, getitem.
destruct (contains "cam" (model_id (config (self w))));
  destruct (nth_error (models (self w)) model_idx); reflexivity.
Qed.

(** C7 in equational form, shared by the claims below. *)
Lemma get_uncertainty_unknown model_idx image runs method (w : world) :
  ~ known_method method ->
  get_uncertainty model_idx image runs method w
  = (logged w [EvPrint (MsgInvalidMethod method)], Ok None).
Proof.
intro H. unfold get_uncertainty, known_method in *.
destruct (String.eqb method "epistemic") eqn:E1.
{ apply String.eqb_eq in E1. tauto. }
destruct (String.eqb method "aleatoric") eqn:E2.
{ apply String.eqb_eq in E2. tauto. }
reflexivity.
Qed.

Lemma uncertainty_of_log dropout model_idx model image runs (w : world) :
  exists w' r,
    uncertainty_of dropout model_idx model image runs w = (w', r) /\
    self w' = self w /\
    log w' = log w ++ [EvInference dropout model_idx
                         (repeat (astype_float32 image) runs)] /\
    (forall p, r = Ok p -> p <> None).
Proof.
unfold uncertainty_of. rewrite repeat_as_map.
unfold bind at 1. rewrite emit_eq.
unfold bind at 1. unfold random. simpl.
destruct (model_call model (repeat (astype_float32 image) runs) (rng w))
  as [raw_logits r'].
unfold bind, lift, ret.
destruct (argmax (mean_axis0_2d raw_logits)) as [pred_idx|e];
  [|eexists; eexists; repeat split; discriminate].
destruct (getitem classes pred_idx) as [pred_class|e];
  [|eexists; eexists; repeat split; discriminate].
destruct (getitem (np_std_axis0 raw_logits) pred_idx) as [std|e];
  [|eexists; eexists; repeat split; discriminate].
eexists; eexists; repeat split. intros p [= <-]. discriminate.
Qed.

Lemma uncertainty_of_total dropout model_idx model image runs (w : world) :
  logits_ok -> (1 <= runs)%nat ->
  exists w' p, uncertainty_of dropout model_idx model image runs w = (w', Ok p).
Proof.
intros Hok Hruns. unfold uncertainty_of. rewrite repeat_as_map.
unfold bind at 1. rewrite emit_eq.
unfold bind at 1. unfold random. simpl.
destruct (Hok model (repeat (astype_float32 image) runs) (rng w))
  as (K & HK & Hshape & Hstd); [rewrite repeat_length; lia|].
rewrite repeat_length in Hshape.
destruct (model_call model (repeat (astype_float32 image) runs) (rng w))
  as [raw_logits r']. simpl in Hshape, Hstd.
pose proof (mean_axis0_2d_length _ _ _ Hshape Hruns) as Hmean.
destruct (argmax_total (mean_axis0_2d raw_logits)) as [pred_idx Hidx]; [lia|].
pose proof (argmax_first_max _ _ Hidx) as [Hlt _]. rewrite Hmean in Hlt.
destruct (getitem_lt classes pred_idx) as [pred_class Hc]; [simpl; lia|].
destruct (getitem_lt (np_std_axis0 raw_logits) pred_idx) as [std Hs]; [lia|].
unfold bind, lift, ret. rewrite Hidx, Hc, Hs. eauto.
Qed.

(** Whatever the outcome, [get_uncertainty] leaves the instance alone and
every inference it runs uses the ensemble member it was given. *)
Lemma get_uncertainty_log model_idx image runs method (w : world) :
  exists w' r evs,
    get_uncertainty model_idx image runs method w = (w', r) /\
    self w' = self w /\ log w' = log w ++ evs /\
    Forall (uses_model model_idx) evs /\
    (forall p, r = Ok p -> (p <> None <-> known_method method)) /\
    (forall p, r = Ok p -> ~ known_method method ->
               evs = [EvPrint (MsgInvalidMethod method)]).
Proof.
assert (Hfail : forall e, exists (w' : world) (r : result (option (Q * string))) evs,
          (w, Raise e) = (w', r) /\ self w' = self w /\
          log w' = log w ++ evs /\ Forall (uses_model model_idx) evs /\
          (forall p, r = Ok p -> (p <> None <-> known_method method)) /\
          (forall p, r = Ok p -> ~ known_method method ->
                     evs = [EvPrint (MsgInvalidMethod method)])).
{ intro e. exists w, (Raise e), []. rewrite app_nil_r.
  split; [reflexivity|]. split; [reflexivity|]. split; [reflexivity|].
  split; [constructor|]. split; intros p Hp; discriminate. }
unfold get_uncertainty.
destruct (String.eqb method "epistemic") eqn:E1.
- apply String.eqb_eq in E1. unfold bind at 1. unfold attr.
  destruct (dropout_evaluator (self w)) as [dm|]; [|apply Hfail].
  unfold bind at 1. unfold lift.
  destruct (getitem dm model_idx) as [model|e]; [|apply Hfail].
  destruct (uncertainty_of_log true model_idx model image runs w)
    as (w' & r & -> & Hs & Hl & Hp).
  exists w', r. eexists.
  split; [reflexivity|]. split; [exact Hs|]. split; [exact Hl|].
  split; [repeat constructor|]. split.
  + intros p Hr. split; [intros _; now left|intros _; now apply Hp].
  + intros p _ Hn. exfalso. apply Hn. now left.
- destruct (String.eqb method "aleatoric") eqn:E2.
  + apply String.eqb_eq in E2. unfold bind at 1. unfold get_self.
    unfold bind at 1. unfold lift.
    destruct (getitem (models (self w)) model_idx) as [model|e]; [|apply Hfail].
    unfold bind at 1. rewrite emit_eq. unfold bind at 1. unfold random.
    destruct (augmentor_flow_next image (rng (logged w [EvAugment image])))
      as [image' r'] eqn:Eaug.
    match goal with
    | |- context [uncertainty_of false model_idx model image' runs ?w1] =>
        destruct (uncertainty_of_log false model_idx model image' runs w1)
          as (w' & r & -> & Hs & Hl & Hp)
    end.
    simpl in Hs, Hl. exists w', r. eexists.
    split; [reflexivity|]. split; [exact Hs|].
    split; [rewrite Hl, <- app_assoc; reflexivity|].
    split; [repeat constructor|]. split.
    * intros p Hr. split; [intros _; now right|intros _; now apply Hp].
    * intros p _ Hn. exfalso. apply Hn. now right.
  + assert (Hunk : ~ known_method method).
    { intros [H|H]; subst; simpl in *; discriminate. }
    exists (logged w [EvPrint (MsgInvalidMethod method)]), (Ok None).
    eexists.
    split; [reflexivity|]. split; [reflexivity|]. split; [reflexivity|].
    split; [repeat constructor|]. split.
    * intros p [= <-]. split; [congruence|tauto].
    * reflexivity.
Qed.

End FrameFacts.

(** ** The loops of [cam_important_frames] *)

Section LoopFacts.
Import Numpy.
Context {B : Backend}.

Lemma logged_nil (w : world) : logged w [] = w.
Proof. destruct w. unfold logged. simpl. now rewrite app_nil_r. Qed.

Lemma bind_lift {A C} (r : result A) (k : A -> M C) (w : world) (a : A) :
  r = Ok a -> bind (lift r) k w = k a w.
Proof. intros ->. reflexivity. Qed.

Lemma bind_attr {A C} (field : VideoEvaluator -> option A) (k : A -> M C)
    (w : world) (a : A) :
  field (self w) = Some a -> bind (attr field) k w = k a w.
Proof. intro H. unfold bind, attr. now rewrite H. Qed.

Lemma bind_assign {C} (dims : Z * Z) (x : Image)
    (k : Image -> world -> world * result C) (w : world) :
  fits dims x -> bind (assign dims x) k w = k x w.
Proof. unfold fits, bind, assign. now intros ->. Qed.

Lemma assign_Ok (dims : Z * Z) (x y : Image) (w w' : world) :
  assign dims x w = (w', Ok y) -> w' = w /\ broadcast_to dims x = Some y.
Proof.
unfold assign. destruct (broadcast_to dims x); [|discriminate].
unfold ret. intros [= -> ->]. auto.
Qed.

Lemma resize_loop_eq (dims : Z * Z) (frames : list Frame) :
  (forall img, fits dims (scale255_astype_int (cv2_resize img dims))) ->
  forall idx (w : world),
    resize_loop dims idx frames w
    = (logged w (map (fun i => EvResize i dims) (seq idx (length frames))),
       Ok (map (fun img => scale255_astype_int (cv2_resize img dims)) frames)).
Proof.
intro Hfit. induction frames as [|img rest IH]; intros idx w; simpl.
- now rewrite logged_nil.
- unfold bind at 1. rewrite emit_eq. rewrite (bind_assign _ _ _ _ (Hfit img)).
  unfold bind at 1. rewrite IH. now rewrite logged_logged.
Qed.


Lemma get_uncertainty_total model_idx image method (w : world) (M : nat) :
  servable (self w) M (Some method) -> length (models (self w)) = M ->
  (model_idx < M)%nat ->
  exists w' p, get_uncertainty model_idx image 10 method w = (w', Ok p).
Proof.
intros Hserv Hlen Hlt. unfold servable in Hserv.
destruct (string_dec method "epistemic") as [He|He].
- destruct Hserv as [Hok Hdm]; [now left|].
  destruct (Hdm He) as (dm & Hdm1 & Hdm2).
  unfold get_uncertainty. subst method. rewrite String.eqb_refl.
  rewrite (bind_attr _ _ _ _ Hdm1).
  destruct (getitem_lt dm model_idx) as [model Hmodel]; [lia|].
  rewrite (bind_lift _ _ _ _ Hmodel).
  apply uncertainty_of_total; [exact Hok|lia].
- destruct (string_dec method "aleatoric") as [Ha|Ha].
  + destruct Hserv as [Hok _]; [now right|].
    unfold get_uncertainty. subst method.
    change (String.eqb "aleatoric" "epistemic") with false.
    rewrite String.eqb_refl.
    unfold bind at 1. unfold get_self.
    destruct (getitem_lt (models (self w)) model_idx) as [model Hmodel]; [lia|].
    rewrite (bind_lift _ _ _ _ Hmodel).
    unfold bind at 1. rewrite emit_eq. unfold bind at 1. unfold random.
    destruct (augmentor_flow_next image (rng (logged w [EvAugment image])))
      as [image' r'].
    apply uncertainty_of_total; [exact Hok|lia].
  + rewrite get_uncertainty_unknown by (unfold known_method; tauto). eauto.
Qed.

(** A successful pass of the main loop: the instance is untouched, and each
selected frame contributed its step. *)
Lemma main_loop_spec class_idx zeroing dims um imgs preds (frames : list nat) :
  forall (w w' : world) cams precs,
    image_arr (self w) = Some imgs -> predictions (self w) = Some preds ->
    main_loop class_idx zeroing dims um frames w = (w', Ok (cams, precs)) ->
    self w' = self w /\
    exists steps,
      Forall2 (frame_step (self w) imgs preds class_idx zeroing dims) frames steps
      /\ log w' = log w ++ concat (map fst steps)
      /\ cams = map snd steps
      /\ match um with
         | None => precs = []
         | Some method =>
             length precs = length frames /\
             Forall (fun p => p <> None <-> known_method method) precs /\
             (~ known_method method ->
              Forall (fun st => In (EvPrint (MsgInvalidMethod method)) (fst st))
                steps)
         end.
Proof.
induction frames as [|f rest IH]; intros w w' cams precs Himg Hpred H.
- simpl in H. unfold ret in H. inversion H; subst. split; [reflexivity|].
  exists []. split; [constructor|]. split; [simpl; now rewrite app_nil_r|].
  split; [reflexivity|].
  destruct um; [split; [reflexivity|split; constructor]|reflexivity].
- simpl in H.
  rewrite (bind_attr _ _ _ _ Hpred) in H.
  apply bind_Ok in H. destruct H as (w1 & scores & H1 & H).
  apply lift_Ok in H1. destruct H1 as [-> Hcol].
  apply bind_Ok in H. destruct H as (w1 & model_idx & H1 & H).
  apply lift_Ok in H1. destruct H1 as [-> Hmax].
  rewrite (bind_attr _ _ _ _ Himg) in H.
  apply bind_Ok in H. destruct H as (w1 & in_img & H1 & H).
  apply lift_Ok in H1. destruct H1 as [-> Hin]. apply getitem_Ok in Hin.
  apply bind_Ok in H. destruct H as (w1 & cam & H1 & H).
  rewrite compute_cam_eq in H1.
  destruct (nth_error (models (self w)) model_idx) as [model|] eqn:Emodel;
    [|discriminate].
  inversion H1; subst w1 cam. clear H1.
  apply bind_Ok in H. destruct H as (w1 & cam & H1 & H).
  apply assign_Ok in H1. destruct H1 as [-> Hbc].
  apply bind_Ok in H. destruct H as (w2 & precision & H1 & H).
  apply bind_Ok in H. destruct H as (w3 & [cams' precs'] & H2 & H).
  unfold ret in H. inversion H; subst w3 cams precs. clear H.
  assert (Hu : self w2 = self w /\ exists evs,
            log w2 = log w ++ EvCam in_img model_idx class_idx
                       (contains "cam" (model_id (config (self w)))) :: evs /\
            Forall (uses_model model_idx) evs /\
            match um with
            | None => precision = []
            | Some method =>
                exists p, precision = [p] /\
                  (p <> None <-> known_method method) /\
                  (~ known_method method ->
                   In (EvPrint (MsgInvalidMethod method)) evs)
            end).
  { destruct um as [method|].
    - apply bind_Ok in H1. destruct H1 as (w3 & p & H1 & H3).
      unfold ret in H3. inversion H3; subst w3 precision. clear H3.
      destruct (get_uncertainty_log model_idx in_img 10 method
                  (logged w [EvCam in_img model_idx class_idx
                     (contains "cam" (model_id (config (self w))))]))
        as (w3 & r & evs & Heq & Hs & Hl & Hf & Hp & Hpr).
      rewrite H1 in Heq. inversion Heq; subst w3 r. clear Heq.
      split; [exact Hs|]. exists evs. split.
      + rewrite Hl. simpl. now rewrite <- app_assoc.
      + split; [exact Hf|]. exists p. split; [reflexivity|].
        split; [now apply Hp|]. intro Hn.
        rewrite (Hpr p eq_refl Hn). now left.
    - unfold ret in H1. inversion H1; subst w2 precision. clear H1.
      split; [reflexivity|]. exists []. split; [reflexivity|].
      split; [constructor|reflexivity]. }
  destruct Hu as (Hs2 & evs & Hl2 & Hf2 & Hprec).
  destruct (IH w2 w' cams' precs') as (Hs' & steps & HF2 & Hl' & Hc' & Hp').
  { now rewrite Hs2. } { now rewrite Hs2. } { exact H2. }
  split; [congruence|].
  exists ((EvCam in_img model_idx class_idx
             (contains "cam" (model_id (config (self w)))) :: evs,
           cam) :: steps).
  split.
  { constructor.
    - exists in_img, scores, model_idx, model, evs.
      repeat split; auto; apply (argmax_first_max _ _ Hmax).
    - rewrite Hs2 in HF2. exact HF2. }
  split.
  { rewrite Hl', Hl2. simpl. now rewrite <- app_assoc. }
  split; [simpl; now rewrite Hc'|].
  destruct um as [method|].
  + destruct Hprec as (p & -> & Hp & Hpr). destruct Hp' as (Hlen & Hall & Hprs).
    split; [simpl; now rewrite Hlen|]. split; [constructor; assumption|].
    intro Hn. constructor; [simpl; right; now apply Hpr|now apply Hprs].
  + subst precision. exact Hp'.
Qed.

Lemma main_loop_total class_idx zeroing dims um imgs preds (M F C : nat)
    (frames : list nat) :
  forall w : world,
    well_formed (self w) imgs preds M F C -> servable (self w) M um ->
    images_fit (self w) dims ->
    Forall (fun f => (f < F)%nat) frames -> (class_idx < C)%nat ->
    exists w' cams precs,
      main_loop class_idx zeroing dims um frames w = (w', Ok (cams, precs)).
Proof.
induction frames as [|f rest IH]; intros w Hwf Hserv Hfit Hall Hc.
- simpl. unfold ret. eauto.
- inversion Hall as [|? ? Hf Hrest]; subst.
  pose proof Hwf as (Hi & Hp & Hsh & Hli & Hlm & HM & HF & HC).
  destruct (column3_total preds M F C f class_idx Hsh Hf Hc)
    as (scores & Hcol & Hls).
  destruct (argmax_total scores) as [model_idx Hmax]; [lia|].
  pose proof (argmax_first_max _ _ Hmax) as (Hlt & _).
  destruct (getitem_lt imgs f) as [in_img Himg]; [lia|].
  destruct (nth_error (models (self w)) model_idx) as [model|] eqn:Emodel.
  2:{ apply nth_error_None in Emodel. lia. }
  simpl main_loop.
  rewrite (bind_attr _ _ _ _ Hp), (bind_lift _ _ _ _ Hcol).
  rewrite (bind_lift _ _ _ _ Hmax), (bind_attr _ _ _ _ Hi).
  rewrite (bind_lift _ _ _ _ Himg).
  unfold bind at 1. rewrite compute_cam_eq, Emodel.
  rewrite (bind_assign _ _ _ _
             (proj1 (proj2 Hfit) in_img model class_idx zeroing)).
  set (w1 := logged w _).
  assert (Hu : exists w2 precision,
            match um with
            | Some method =>
                bind (get_uncertainty model_idx in_img 10 method)
                  (fun p => ret [p])
            | None => ret []
            end w1 = (w2, Ok precision) /\ self w2 = self w).
  { destruct um as [method|].
    - destruct (get_uncertainty_total model_idx in_img method w1 M)
        as (w2 & p & Hgu); [exact Hserv|exact Hlm|lia|].
      destruct (get_uncertainty_log model_idx in_img 10 method w1)
        as (w3 & r & evs & Heq & Hs & _).
      rewrite Hgu in Heq. inversion Heq; subst w3 r.
      exists w2, [p]. split; [|exact Hs].
      unfold bind. now rewrite Hgu.
    - exists w1, []. split; reflexivity. }
  destruct Hu as (w2 & precision & Hu & Hs2).
  unfold bind at 1. rewrite Hu.
  destruct (IH w2) as (w' & cams & precs & Hrec); auto.
  + now rewrite Hs2.
  + now rewrite Hs2.
  + now rewrite Hs2.
  + unfold bind at 1. rewrite Hrec. unfold ret. eauto.
Qed.

End LoopFacts.

(** ** The output branch *)

Section ComposeFacts.
Import Numpy.
Context {B : Backend}.




(** With an uncertainty method whose precision for the first selected frame
is absent, the first iteration of the output loop raises [TypeError]. *)
Lemma compose_loop_none_precision method dims (best : list nat)
    (cams : list Image) (precs : list (option (Q * string)))
    (copied : list Image) (n : nat) (b : nat) (cam : Image) (w : world) :
  nth_error best 0 = Some b -> nth_error cams 0 = Some cam ->
  nth_error precs 0 = Some None -> (b < length copied)%nat ->
  compose_loop (S n) 0 (Some method) dims best cams precs copied w
  = (w, Raise TypeError).
Proof.
intros Hb Hcam Hp Hlt.
destruct (setitem_lt copied b cam Hlt) as [copied1 Hset].
destruct (setitem_spec _ _ _ _ Hset) as (_ & Hn1 & _).
simpl compose_loop.
rewrite (bind_lift _ _ _ _ (proj2 (getitem_Ok _ _ _) Hb)).
rewrite (bind_lift _ _ _ _ (proj2 (getitem_Ok _ _ _) Hcam)).
rewrite (bind_lift _ _ _ _ Hset).
unfold bind at 1.
rewrite (bind_lift _ _ _ _ (proj2 (getitem_Ok _ _ _) Hn1)).
rewrite (bind_lift _ _ _ _ (proj2 (getitem_Ok _ _ _) Hp)).
reflexivity.
Qed.

End ComposeFacts.

(** ** [cam_important_frames] up to the main loop *)

Section RunFacts.
Import Numpy.
Context {B : Backend}.

Lemma make_dropout_evaluator_eq (w : world) :
  make_dropout_evaluator w = (fst (make_dropout_evaluator w), Ok tt).
Proof. reflexivity. Qed.

Lemma prepared_self um (w : world) :
  config (self (prepared um w)) = config (self w) /\
  models (self (prepared um w)) = models (self w) /\
  image_arr (self (prepared um w)) = image_arr (self w) /\
  predictions (self (prepared um w)) = predictions (self w) /\
  dropout_evaluator (self (prepared um w))
  = (if method_is um "epistemic"
     then Some (Evaluator_models (config (self w)) true)
     else dropout_evaluator (self w)) /\
  log (prepared um w)
  = log w ++ (if method_is um "epistemic"
              then [EvEvaluator (config (self w)) true] else []).
Proof.
unfold prepared. destruct (method_is um "epistemic"); simpl.
- repeat split; reflexivity.
- rewrite app_nil_r. repeat split; reflexivity.
Qed.

Lemma prepared_well_formed um (w : world) imgs preds M F C :
  well_formed (self w) imgs preds M F C ->
  well_formed (self (prepared um w)) imgs preds M F C.
Proof.
destruct (prepared_self um w) as (_ & Hm & Hi & Hp & _).
unfold well_formed. rewrite Hm, Hi, Hp. tauto.
Qed.

Lemma method_is_epistemic um :
  method_is um "epistemic" = true <-> um = Some "epistemic"%string.
Proof.
destruct um as [m|]; simpl; [|split; discriminate].
rewrite String.eqb_eq. split; congruence.
Qed.


Lemma images_fit_prepared um (w : world) dims :
  images_fit (self (prepared um w)) dims <-> images_fit (self w) dims.
Proof.
destruct (prepared_self um w) as (Hc & _).
unfold images_fit, cam_value. rewrite Hc. reflexivity.
Qed.

Lemma frame_step_prepared um (w : world) imgs preds class_idx zeroing dims f step :
  frame_step (self (prepared um w)) imgs preds class_idx zeroing dims f step <->
  frame_step (self w) imgs preds class_idx zeroing dims f step.
Proof.
destruct (prepared_self um w) as (Hc & Hm & _).
unfold frame_step, cam_value. rewrite Hc, Hm. reflexivity.
Qed.

Lemma class_index_total (preds : list (list (list Q))) (M F C : nat) :
  shape3 preds M F C -> (1 <= M)%nat -> (1 <= F)%nat -> (1 <= C)%nat ->
  exists class_idx scores,
    class_index preds = Ok class_idx /\ (class_idx < C)%nat /\
    frame_scores preds class_idx = Ok scores /\ length scores = F.
Proof.
intros Hsh HM HF HC. unfold class_index, frame_scores.
destruct (mean_axis0_3d_spec preds M F C Hsh HM) as [Hmean _].
pose proof (mean_axis0_2d_length _ _ _ Hmean HF) as Hlen.
destruct (argmax_total (mean_axis0_2d (mean_axis0_3d preds)))
  as [class_idx Hidx]; [lia|].
pose proof (argmax_first_max _ _ Hidx) as (Hlt & _). rewrite Hlen in Hlt.
destruct (column_total _ _ _ class_idx Hmean Hlt) as (scores & Hcol & Hls).
exists class_idx, scores. auto.
Qed.

(** With a well-formed instance and admissible dimensions the method reaches
the main loop in the prepared world. *)
Lemma cam_important_frames_run threshold nr_cams zeroing path um dims
    (w : world) imgs preds M F C class_idx scores :
  well_formed (self w) imgs preds M F C ->
  (um <> None -> dims = (1000, 1000)%Z) ->
  (forall img, fits dims (scale255_astype_int (cv2_resize img dims))) ->
  class_index preds = Ok class_idx ->
  frame_scores preds class_idx = Ok scores ->
  cam_important_frames threshold nr_cams zeroing path um dims w
  = bind (main_loop class_idx zeroing dims um
            (best_frames np_argsort nr_cams threshold scores))
      (fun '(cams, precs) =>
         output path um dims (best_frames np_argsort nr_cams threshold scores)
           cams precs (resized dims imgs))
      (logged (prepared um w)
         (preamble class_idx (best_frames np_argsort nr_cams threshold scores)
            dims F)).
Proof.
intros Hwf Hdims Hfit Hci Hfs.
pose proof (prepared_well_formed um w _ _ _ _ _ Hwf)
  as (Hi & Hp & Hsh & Hli & Hlm & HM & HF & HC).
unfold cam_important_frames.
assert (Hguard : is_some um && negb (dims_eqb dims (1000, 1000)%Z) = false).
{ destruct um as [m|]; [|reflexivity]. rewrite Hdims by discriminate.
  reflexivity. }
rewrite Hguard.
assert (Hprep : forall C0 (k : unit -> world -> world * result C0),
          bind (if method_is um "epistemic" then make_dropout_evaluator
                else ret tt) k w = k tt (prepared um w)).
{ intros C0 k. unfold prepared.
  destruct (method_is um "epistemic"); [|reflexivity].
  unfold bind at 1. now rewrite make_dropout_evaluator_eq. }
rewrite Hprep. rewrite (bind_attr _ _ _ _ Hp).
unfold class_index in Hci. unfold frame_scores in Hfs.
rewrite (bind_lift _ _ _ _ Hci), (bind_lift _ _ _ _ Hfs).
unfold bind at 1. rewrite emit_eq.
assert (Hi' : image_arr (self (logged (prepared um w)
                 [EvPrint (MsgPredClass class_idx
                    (best_frames np_argsort nr_cams threshold scores))]))
              = Some imgs) by exact Hi.
rewrite (bind_attr _ _ _ _ Hi').
unfold bind at 1. rewrite (resize_loop_eq _ _ Hfit), logged_logged, Hli.
reflexivity.
Qed.

End RunFacts.

(** ** Claims on [get_uncertainty] and [cam_important_frames] *)

Section RunClaims.
Import Numpy.
Context {B : Backend}.

Lemma Forall2_nth_error {A C} (R : A -> C -> Prop) (l : list A) (l' : list C) :
  Forall2 R l l' ->
  forall i a, nth_error l i = Some a ->
              exists c, nth_error l' i = Some c /\ R a c.
Proof.
induction 1 as [|x y l l' Hxy _ IH]; intros [|i] a Ha; simpl in *;
  try discriminate.
- inversion Ha; subst. eauto.
- now apply IH.
Qed.



(** The main loop of [cam_important_frames] on a well-formed instance. *)
Lemma cam_important_frames_main threshold nr_cams zeroing path um dims
    (w : world) imgs preds M F C class_idx scores :
  well_formed (self w) imgs preds M F C ->
  class_index preds = Ok class_idx ->
  frame_scores preds class_idx = Ok scores ->
  (nr_cams <> None -> is_argsort scores (np_argsort scores)) ->
  (um <> None -> dims = (1000, 1000)%Z) ->
  servable (self (prepared um w)) M um ->
  images_fit (self w) dims ->
  let best := best_frames np_argsort nr_cams threshold scores in
  NoDup best /\ Forall (fun f => (f < F)%nat) best /\
  exists w2 cams precs steps,
    cam_important_frames threshold nr_cams zeroing path um dims w
    = output path um dims best cams precs (resized dims imgs) w2
    /\ Forall (fits dims) cams
    /\ Forall2 (frame_step (self w) imgs preds class_idx zeroing dims) best steps
    /\ log w2 = log (prepared um w) ++ preamble class_idx best dims F
                ++ concat (map fst steps)
    /\ cams = map snd steps
    /\ match um with
       | None => precs = []
       | Some method =>
           length precs = length best /\
           Forall (fun p => p <> None <-> known_method method) precs /\
           (~ known_method method ->
            Forall (fun st => In (EvPrint (MsgInvalidMethod method)) (fst st))
              steps)
       end.
Proof.
intros Hwf Hci Hfs Hsort Hdims Hserv Hfit best.
pose proof Hwf as (_ & _ & Hsh & _ & _ & HM & HF & HC).
destruct (class_index_total preds M F C Hsh HM HF HC)
  as (c' & s' & Hc1 & Hlt & Hc2 & Hlen).
rewrite Hci in Hc1. inversion Hc1; subst c'.
rewrite Hfs in Hc2. inversion Hc2; subst s'. clear Hc1 Hc2.
destruct (best_frames_valid np_argsort nr_cams threshold scores Hsort)
  as [Hnd Hin].
assert (Hall : Forall (fun f => (f < F)%nat) best).
{ apply Forall_forall. intros f Hf. rewrite <- Hlen. now apply Hin. }
split; [exact Hnd|]. split; [exact Hall|].
pose proof (prepared_well_formed um w _ _ _ _ _ Hwf) as Hwf'.
set (w1 := logged (prepared um w) (preamble class_idx best dims F)).
destruct (main_loop_total class_idx zeroing dims um imgs preds M F C best w1)
  as (w2 & cams & precs & Hloop); auto.
{ now apply (images_fit_prepared um w dims). }
destruct Hwf' as (Hi & Hp & _).
destruct (main_loop_spec class_idx zeroing dims um imgs preds best w1 w2
            cams precs Hi Hp Hloop) as (Hs2 & steps & HF2 & Hl2 & Hcams & Hprecs).
exists w2, cams, precs, steps.
split.
{ rewrite (cam_important_frames_run threshold nr_cams zeroing path um dims w
            imgs preds M F C class_idx scores Hwf Hdims (proj1 Hfit) Hci Hfs).
  fold best. fold w1. unfold bind. now rewrite Hloop. }
assert (HF2' : Forall2 (frame_step (self w) imgs preds class_idx zeroing dims)
                 best steps).
{ eapply Forall2_impl; [|exact HF2]. intros f st.
  apply (frame_step_prepared um w). }
split.
{ rewrite Hcams. apply Forall_map. clear - HF2' Hfit.
  induction HF2' as [|f st fs sts Hst _ IH]; constructor; [|exact IH].
  destruct Hst as (in_img & sc & mi & model & rest & _ & _ & _ & _ & _ & _ & Hbc).
  pose proof (proj1 (proj2 Hfit) in_img model class_idx zeroing) as Hf.
  unfold fits in *. congruence. }
split; [exact HF2'|].
split; [rewrite Hl2; unfold w1; simpl; now rewrite <- app_assoc|].
split; [exact Hcams|exact Hprecs].
Qed.

(** C5: whenever an uncertainty method is given and the output dimensions
are not (1000, 1000), [cam_important_frames] raises [ValueError] at once: no
event was logged (no selection, no resizing, no CAM) and the instance is
unchanged. *)
Theorem uncertainty_with_other_dims_raises_first
  (w : world) (threshold : Q) (nr_cams : option Z) (zeroing : Q)
  (path : option string) (method : string) (dims : Z * Z) :
  dims <> (1000, 1000)%Z ->
  cam_important_frames threshold nr_cams zeroing path (Some method) dims w
  = (w, Raise ValueError).
Proof.
intro Hd. unfold cam_important_frames.
assert (Hg : dims_eqb dims (1000, 1000)%Z = false).
{ destruct dims as [x y]. unfold dims_eqb. simpl.
  destruct (x =? 1000)%Z eqn:Ex; [|reflexivity].
  destruct (y =? 1000)%Z eqn:Ey; [|reflexivity].
  apply Z.eqb_eq in Ex, Ey. subst. now elim Hd. }
rewrite Hg. reflexivity.
Qed.

(** C7: for a method other than "epistemic" and "aleatoric",
[get_uncertainty] prints the message, raises nothing and returns [None]; the
message is the only event, so no model was run. *)
Theorem unknown_method_prints_and_returns_none
  (w : world) (model_idx : nat) (image : Frame) (runs : nat) (method : string) :
  method <> "epistemic"%string -> method <> "aleatoric"%string ->
  get_uncertainty model_idx image runs method w
  = (logged w [EvPrint (MsgInvalidMethod method)], Ok None).
Proof.
intros He Ha. apply get_uncertainty_unknown. unfold known_method. tauto.
Qed.

(** C4 (what the code does): with "aleatoric" the augmentor is drawn once
per call, and the model receives [runs] copies of that single augmented
image. *)
Theorem aleatoric_augments_once_per_call
  (w : world) (model_idx : nat) (image : Frame) (runs : nat) (model : Model) :
  nth_error (models (self w)) model_idx = Some model ->
  exists w' r,
    get_uncertainty model_idx image runs "aleatoric" w = (w', r) /\
    log w' = log w ++
      [EvAugment image;
       EvInference false model_idx
         (repeat (astype_float32 (fst (augmentor_flow_next image (rng w)))) runs)].
Proof.
intro Hm. unfold get_uncertainty.
change (String.eqb "aleatoric" "epistemic") with false.
rewrite String.eqb_refl.
unfold bind at 1. unfold get_self.
rewrite (bind_lift _ _ _ _ (proj2 (getitem_Ok _ _ _) Hm)).
unfold bind at 1. rewrite emit_eq. unfold bind at 1. unfold random.
change (rng (logged w [EvAugment image])) with (rng w).
destruct (augmentor_flow_next image (rng w)) as [image' r'].
match goal with
| |- context [uncertainty_of false model_idx model image' runs ?w1] =>
    destruct (uncertainty_of_log false model_idx model image' runs w1)
      as (w' & r & -> & _ & Hl & _)
end.
exists w', r. split; [reflexivity|].
rewrite Hl. simpl. now rewrite <- app_assoc.
Qed.



(** C10: with an output path, (1000, 1000) dimensions, at least one selected
frame and a method that is neither "epistemic" nor "aleatoric", the run raises
[TypeError]: [get_uncertainty] printed its message for the frame and its
[None] is subscripted in the output loop.  Nothing was written. *)
Theorem unknown_method_aborts_video_output
  (threshold : Q) (nr_cams : option Z) (zeroing : Q) (path method : string)
  (w : world) (imgs : list Frame)
  (preds : list (list (list Q))) (M F C class_idx : nat) (scores : list Q) :
  well_formed (self w) imgs preds M F C ->
  class_index preds = Ok class_idx ->
  frame_scores preds class_idx = Ok scores ->
  (nr_cams <> None -> is_argsort scores (np_argsort scores)) ->
  images_fit (self w) (1000, 1000)%Z ->
  ~ known_method method ->
  best_frames np_argsort nr_cams threshold scores <> [] ->
  exists w' evs,
    cam_important_frames threshold nr_cams zeroing (Some path) (Some method)
      (1000, 1000)%Z w = (w', Raise TypeError)
    /\ log w' = log w ++ evs
    /\ In (EvPrint (MsgInvalidMethod method)) evs
    /\ forall e, In e evs ->
         match e with
         | EvVideoWriter _ _ _ | EvWrite _ | EvRelease => False
         | _ => True
         end.
Proof.
intros Hwf Hci Hfs Hsort Hfit Hunk Hne.
assert (Hserv : servable (self (prepared (Some method) w)) M (Some method)).
{ intro Hk. tauto. }
destruct (cam_important_frames_main threshold nr_cams zeroing (Some path)
            (Some method) (1000, 1000)%Z w imgs preds M F C class_idx scores
            Hwf Hci Hfs Hsort (fun _ => eq_refl) Hserv Hfit)
  as (Hnd & Hall & w2 & cams & precs & steps & Hrun & _ & HF2 & Hl2 & Hcams
      & Hprecs).
destruct Hprecs as (Hlen & Hfp & Hprint). specialize (Hprint Hunk).
set (best := best_frames np_argsort nr_cams threshold scores) in *.
destruct best as [|b rest] eqn:Ebest; [congruence|].
inversion HF2 as [|? st ? steps' Hst HF2']; subst.
destruct precs as [|p precs']; [simpl in Hlen; lia|].
assert (Hp : p = None).
{ inversion Hfp as [|? ? Hp0 _]; subst.
  destruct p as [x|]; [|reflexivity].
  exfalso. apply Hunk. apply Hp0. discriminate. }
subst p.
assert (Hb : (b < length (resized (1000, 1000)%Z imgs))%nat).
{ unfold resized. rewrite length_map.
  destruct Hwf as (_ & _ & _ & -> & _). now inversion Hall. }
unfold output in Hrun. simpl length in Hrun.
unfold bind at 1 in Hrun.
rewrite (compose_loop_none_precision method (1000, 1000)%Z (b :: rest)
           (map snd (st :: steps'))
           (None :: precs') _ (length rest) b (snd st) w2
           eq_refl eq_refl eq_refl Hb) in Hrun.
destruct (prepared_self (Some method) w) as (_ & _ & _ & _ & _ & Hlp).
exists w2.
exists ((if method_is (Some method) "epistemic"
         then [EvEvaluator (config (self w)) true] else [])
        ++ preamble class_idx (b :: rest) (1000, 1000)%Z F
        ++ concat (map fst (st :: steps'))).
split; [exact Hrun|]. split.
{ rewrite Hl2, Hlp, <- !app_assoc. reflexivity. }
split.
- apply in_or_app. right. apply in_or_app. right.
  simpl. apply in_or_app. left. now inversion Hprint.
- intros e He. apply in_app_or in He. destruct He as [He|He].
  { destruct (method_is (Some method) "epistemic"); simpl in He;
      [destruct He as [<-|[]]; exact I|contradiction]. }
  apply in_app_or in He. destruct He as [He|He].
  { unfold preamble in He. destruct He as [<-|He]; [exact I|].
    apply in_map_iff in He. destruct He as (i & <- & _). exact I. }
  apply in_concat in He. destruct He as (evs & Hevs & He).
  apply in_map_iff in Hevs. destruct Hevs as (st' & <- & Hst').
  assert (Hstep : exists f, frame_step (self w) imgs preds class_idx zeroing
                              (1000, 1000)%Z f st').
  { destruct (In_nth_error _ _ Hst') as [j Hj].
    assert (Hj' : exists f, nth_error (b :: rest) j = Some f).
    { destruct (nth_error (b :: rest) j) eqn:E; eauto.
      apply nth_error_None in E.
      assert (j < length (st :: steps'))%nat
        by (apply nth_error_Some; congruence).
      rewrite <- (Forall2_length HF2) in H. lia. }
    destruct Hj' as [f Hf]. exists f.
    destruct (Forall2_nth_error _ _ _ HF2 j f Hf) as (c & Hc & Hfs').
    congruence. }
  destruct Hstep as (f & in_img & sc & mi & model & rest' & _ & _ & _ & _
                     & Hev & Hrest & _).
  rewrite Hev in He. destruct He as [<-|He]; [exact I|].
  rewrite Forall_forall in Hrest. specialize (Hrest e He).
  destruct e; simpl in Hrest; solve [exact I | contradiction].
Qed.

End RunClaims.

(** ** The properties on the example video *)


Lemma example_well_formed :
  well_formed (self Example.world1) Example.frames1 Example.preds1 2 4 2.
Proof.
unfold well_formed. repeat split; try reflexivity; try lia; repeat constructor.
Qed.

Lemma example_images_fit :
  images_fit (self Example.world1) (1000, 1000)%Z.
Proof.
split; [|split].
- intro img. reflexivity.
- intros img model class_idx zeroing. reflexivity.
- intros x precision Hx. unfold fits in *. simpl in *.
  destruct (dims_eqb (Example.shape x) (1000, 1000)%Z); [reflexivity|discriminate].
Qed.


(** The count zero at the public interface: one CAM per frame of the
four-frame video is returned. *)
Example top_k_zero_returns_a_cam_per_frame :
  snd (@cam_important_frames Example.backend (3 # 4) (Some 0%Z) (13 # 20) None
         None (224, 224)%Z Example.world1)
  = Ok (Some [Example.ActivationMap 0 1 0 (224, 224)%Z;
              Example.ActivationMap 1 2 0 (224, 224)%Z;
              Example.ActivationMap 0 3 0 (224, 224)%Z;
              Example.ActivationMap 0 0 0 (224, 224)%Z]).
Proof. vm_compute. reflexivity. Qed.

Lemma uncertainty_with_other_dims_raises_first_witness :
  @cam_important_frames Example.backend (3 # 4) None (13 # 20) (Some "out"%string)
    (Some "epistemic"%string) (224, 224)%Z Example.world1
  = (Example.world1, Raise ValueError).
Proof.
apply (@uncertainty_with_other_dims_raises_first Example.backend
         Example.world1 (3 # 4) None (13 # 20) (Some "out"%string)
         "epistemic"%string (224, 224)%Z).
discriminate.
Defined.

Lemma unknown_method_prints_and_returns_none_witness :
  @get_uncertainty Example.backend 0 3%nat 10 "bayesian" Example.world1
  = (logged Example.world1 [EvPrint (MsgInvalidMethod "bayesian")], Ok None).
Proof.
apply (@unknown_method_prints_and_returns_none Example.backend
         Example.world1 0%nat 3%nat 10%nat "bayesian"%string); discriminate.
Defined.

Lemma aleatoric_augments_once_per_call_witness :
  exists w' r,
    @get_uncertainty Example.backend 0 3%nat 10 "aleatoric" Example.world1
    = (w', r) /\
    log w' = log Example.world1 ++
      [EvAugment (3%nat : @Frame Example.backend);
       EvInference false 0
         (repeat (@astype_float32 Example.backend
                    (fst (@augmentor_flow_next Example.backend 3%nat
                            (rng Example.world1)))) 10)].
Proof.
apply (@aleatoric_augments_once_per_call Example.backend Example.world1
         0%nat 3%nat 10%nat 0%nat).
reflexivity.
Defined.



Lemma unknown_method_aborts_video_output_witness :
  exists w' evs,
    @cam_important_frames Example.backend (3 # 4) None (13 # 20)
      (Some "out"%string) (Some "bayesian"%string) (1000, 1000)%Z
      Example.world1 = (w', Raise TypeError)
    /\ log w' = log Example.world1 ++ evs
    /\ In (EvPrint (MsgInvalidMethod "bayesian")) evs
    /\ forall e, In e evs ->
         match e with
         | EvVideoWriter _ _ _ | EvWrite _ | EvRelease => False
         | _ => True
         end.
Proof.
apply (@unknown_method_aborts_video_output Example.backend (3 # 4) None
         (13 # 20) "out"%string "bayesian"%string Example.world1
         Example.frames1 Example.preds1 2 4 2 0 Example.scores1).
- exact example_well_formed.
- vm_compute. reflexivity.
- vm_compute. reflexivity.
- intro H. now elim H.
- exact example_images_fit.
- intros [H|H]; discriminate.
- vm_compute. discriminate.
Defined.

(** * Further properties of the module *)

(** ** Selection: order, counts and [important_frames] *)

Section SelectionExtras.
Import Numpy.

Lemma where_from_sorted (mask : list bool) :
  forall i, StronglySorted lt (where_from i mask).
Proof.
induction mask as [|b m IH]; intro i; simpl; [constructor|].
destruct b; [|apply IH]. constructor; [apply IH|].
apply Forall_forall. intros f Hf. apply where_from_In in Hf. lia.
Qed.

(** X1: in threshold mode the selected indices come in file order, that is
strictly increasing. *)
Theorem threshold_selection_in_frame_order
  (argsort : list Q -> list nat) (threshold : Q) (scores : list Q) :
  StronglySorted lt (best_frames argsort None threshold scores).
Proof. simpl. apply where_from_sorted. Qed.

(** X2: a negative count is not rejected: [arr[-k:]] with [k < 0] is
[arr[|k|:]], so the selection is the argsort output without its first [|k|]
entries, and [F - |k|] frames (none when [|k| >= F]) are selected. *)
Theorem negative_count_drops_lowest
  (argsort : list Q -> list nat) (threshold : Q) (scores : list Q) (k : Z) :
  (k < 0)%Z -> length (argsort scores) = length scores ->
  best_frames argsort (Some k) threshold scores
  = skipn (Z.to_nat (- k)) (argsort scores)
  /\ length (best_frames argsort (Some k) threshold scores)
     = (length scores - Z.to_nat (- k))%nat.
Proof.
intros Hk Hlen.
assert (H : best_frames argsort (Some k) threshold scores
            = skipn (Z.to_nat (- k)) (argsort scores)).
{ simpl. unfold slice_from.
  destruct (- k <? 0)%Z eqn:E1; [apply Z.ltb_lt in E1; lia|].
  destruct (Z.of_nat (length (argsort scores)) <? - k)%Z eqn:E2;
    [|reflexivity].
  apply Z.ltb_lt in E2. rewrite Nat2Z.id.
  rewrite skipn_all. symmetry. apply skipn_all2. lia. }
split; [exact H|]. rewrite H, length_skipn, Hlen. reflexivity.
Qed.

Lemma negative_count_drops_lowest_witness :
  best_frames Npysort.argsort (Some (-1)%Z) (3 # 4) Example.scores4
  = skipn 1 (Npysort.argsort Example.scores4)
  /\ length (best_frames Npysort.argsort (Some (-1)%Z) (3 # 4) Example.scores4)
     = (4 - 1)%nat.
Proof.
apply (negative_count_drops_lowest Npysort.argsort (3 # 4) Example.scores4
         (-1)%Z); [lia|reflexivity].
Defined.

(** X3: for a count [k >= 1] the top-k selection has [min k F] indices, and
once [k >= F] it is the whole argsort output: every frame is selected. *)
Theorem top_k_count_and_exhaustion
  (argsort : list Q -> list nat) (threshold : Q) (scores : list Q) (k : Z) :
  is_argsort scores (argsort scores) -> (1 <= k)%Z ->
  length (best_frames argsort (Some k) threshold scores)
  = Nat.min (Z.to_nat k) (length scores)
  /\ ((Z.of_nat (length scores) <= k)%Z ->
      best_frames argsort (Some k) threshold scores = argsort scores /\
      forall f, (f < length scores)%nat ->
                In f (best_frames argsort (Some k) threshold scores)).
Proof.
intros Hsort Hk. pose proof (is_argsort_length _ _ Hsort) as Hlen.
split; [now apply top_k_length|]. intro Hge.
assert (H : best_frames argsort (Some k) threshold scores = argsort scores).
{ simpl. rewrite slice_from_last_k by exact Hk. unfold last_k.
  replace (length (argsort scores) - Z.to_nat k)%nat with 0%nat by lia.
  reflexivity. }
split; [exact H|]. intros f Hf. rewrite H.
now apply (is_argsort_In _ _ f Hsort).
Qed.

Lemma top_k_count_and_exhaustion_witness :
  length (best_frames Npysort.argsort (Some 7%Z) (3 # 4) Example.scores4)
  = Nat.min 7 4
  /\ ((Z.of_nat 4 <= 7)%Z ->
      best_frames Npysort.argsort (Some 7%Z) (3 # 4) Example.scores4
      = Npysort.argsort Example.scores4 /\
      forall f, (f < 4)%nat ->
        In f (best_frames Npysort.argsort (Some 7%Z) (3 # 4) Example.scores4)).
Proof.
apply (top_k_count_and_exhaustion Npysort.argsort (3 # 4) Example.scores4 7).
- apply argsort_ok_sound. vm_compute. reflexivity.
- lia.
Defined.

(** The last [k] entries of an ascending argsort dominate the others. *)
Lemma last_k_dominates (v : list Q) (out : list nat) (k : nat) :
  is_argsort v out ->
  forall f g, In f (last_k k out) -> (g < length v)%nat ->
              ~ In g (last_k k out) -> score v g <= score v f.
Proof.
intros Hsort f g Hf Hg Hng.
pose proof (last_k_split k out) as Hsplit.
set (s := (length out - k)%nat) in *.
apply (is_argsort_In _ _ g Hsort) in Hg.
rewrite Hsplit in Hg. apply in_app_or in Hg. destruct Hg as [Hg|Hg]; [|tauto].
destruct (In_nth _ _ 0%nat Hg) as [i [Hi Hgi]].
destruct (In_nth _ _ 0%nat Hf) as [j [Hj Hfj]].
rewrite length_firstn in Hi. rewrite nth_firstn in Hgi.
destruct (i <? s)%nat eqn:E; [|apply Nat.ltb_ge in E; lia].
rewrite last_k_length in Hj.
unfold last_k in Hfj. rewrite nth_skipn in Hfj. fold s in Hfj.
rewrite <- Hgi, <- Hfj. apply (proj2 Hsort). lia.
Qed.

(** X4: [important_frames] on predictions of shape (F, C), for a class in
range and [n_return >= 1], returns [min n_return F] frame indices, each
scoring at least as high for the class as every frame it leaves out. *)
Theorem important_frames_returns_top_scoring
  (argsort : list Q -> list nat) (preds : list (list Q)) (F C : nat)
  (predicted_class : nat) (n_return : Z) :
  shape2 preds F C -> (predicted_class < C)%nat -> (1 <= n_return)%Z ->
  (forall scores, column preds predicted_class = Ok scores ->
                  is_argsort scores (argsort scores)) ->
  exists scores sel,
    column preds predicted_class = Ok scores
    /\ important_frames argsort preds predicted_class n_return = Ok sel
    /\ length sel = Nat.min (Z.to_nat n_return) F
    /\ (forall f, In f sel -> (f < F)%nat)
    /\ (forall f g, In f sel -> (g < F)%nat -> ~ In g sel ->
                    score scores g <= score scores f).
Proof.
intros Hshape Hc Hn Hsort.
destruct (column_total preds F C predicted_class Hshape Hc)
  as (scores & Hcol & Hlen).
specialize (Hsort scores Hcol).
exists scores, (slice_from (- n_return) (argsort scores)).
split; [exact Hcol|]. unfold important_frames. rewrite Hcol.
split; [reflexivity|]. rewrite slice_from_last_k by exact Hn.
split; [|split].
- rewrite last_k_length, (is_argsort_length _ _ Hsort), Hlen. reflexivity.
- intros f Hf. rewrite <- Hlen. apply (is_argsort_In _ _ f Hsort).
  unfold last_k in Hf. eapply skipn_In; eauto.
- intros f g Hf Hg Hng.
  apply (last_k_dominates scores (argsort scores) (Z.to_nat n_return) Hsort f g);
    auto. now rewrite Hlen.
Qed.

Lemma important_frames_returns_top_scoring_witness :
  exists scores sel,
    column Example.mean_preds4 0 = Ok scores
    /\ important_frames Npysort.argsort Example.mean_preds4 0 2 = Ok sel
    /\ length sel = Nat.min (Z.to_nat 2) 4
    /\ (forall f, In f sel -> (f < 4)%nat)
    /\ (forall f g, In f sel -> (g < 4)%nat -> ~ In g sel ->
                    score scores g <= score scores f).
Proof.
apply (important_frames_returns_top_scoring Npysort.argsort
         Example.mean_preds4 4 2 0 2).
- split; [reflexivity|repeat constructor].
- lia.
- lia.
- intros scores H. vm_compute in H. inversion H; subst.
  apply argsort_ok_sound. vm_compute. reflexivity.
Defined.

(** X5: [important_frames] with a class index outside the class axis raises
[IndexError] as soon as there is a frame. *)
Theorem important_frames_class_out_of_range
  (argsort : list Q -> list nat) (preds : list (list Q)) (F C : nat)
  (predicted_class : nat) (n_return : Z) :
  shape2 preds F C -> (1 <= F)%nat -> (C <= predicted_class)%nat ->
  important_frames argsort preds predicted_class n_return = Raise IndexError.
Proof.
intros [Hlen Hall] HF Hc. unfold important_frames.
destruct preds as [|row rest]; [simpl in Hlen; lia|].
inversion Hall; subst. simpl. unfold getitem.
destruct (nth_error row predicted_class) eqn:E; [|reflexivity].
assert (predicted_class < length row)%nat by (apply nth_error_Some; congruence).
lia.
Qed.

Lemma important_frames_class_out_of_range_witness :
  important_frames Npysort.argsort Example.mean_preds4 2 5 = Raise IndexError.
Proof.
apply (important_frames_class_out_of_range Npysort.argsort
         Example.mean_preds4 4 2 2 5).
- split; [reflexivity|repeat constructor].
- lia.
- lia.
Defined.

End SelectionExtras.

(** ** [__call__] and [read_video] *)

Section CallExtras.
Import Numpy.
Context {B : Backend}.

(** X6: when the video path does not exist, [__call__] raises the assertion
of [read_video]; nothing was assigned and nothing was logged. *)
Theorem call_on_missing_video_raises (w : world) (video_path : string) :
  video_capture video_path = None ->
  __call__ video_path w = (w, Raise AssertionError).
Proof.
intro H. unfold __call__, read_video. rewrite H. reflexivity.
Qed.

(** X7: when the predictions cannot be stacked (an empty ensemble, or models
whose outputs differ in shape), [__call__] raises [ValueError] after the
frames of the new video were stored: [image_arr] holds the new video while
[predictions] is still the one of the previous video. *)
Theorem call_stack_failure_leaves_stale_predictions
  (w : world) (video_path : string) (raw : list Raw) (e : exn) :
  video_capture video_path = Some raw ->
  stack (map (fun model => predict model (map preprocess raw))
           (models (self w))) = Raise e ->
  exists w',
    __call__ video_path w = (w', Raise ValueError)
    /\ image_arr (self w') = Some (map preprocess raw)
    /\ predictions (self w') = predictions (self w)
    /\ models (self w') = models (self w)
    /\ log w' = log w.
Proof.
intros Hcap Hstack.
assert (He : e = ValueError).
{ unfold stack in Hstack.
  destruct (map (fun model => predict model (map preprocess raw))
              (models (self w))) as [|a rest]; [congruence|].
  destruct (forallb (same_shape2 a) rest); congruence. }
subst e.
unfold __call__, read_video, bind, set_image_arr, get_self, put_self, attr,
  lift, ret.
rewrite Hcap. simpl. rewrite Hstack.
eexists. split; [reflexivity|]. simpl. auto.
Qed.

(** X8: [__call__] overwrites the per-video state: the result and the
instance it leaves behind do not depend on the video evaluated before. *)
Theorem call_overwrites_previous_video
  (w1 w2 : world) (video_path : string) (w1' : world)
  (mean_preds : list (list Q)) :
  config (self w2) = config (self w1) ->
  models (self w2) = models (self w1) ->
  dropout_evaluator (self w2) = dropout_evaluator (self w1) ->
  __call__ video_path w1 = (w1', Ok mean_preds) ->
  exists w2',
    __call__ video_path w2 = (w2', Ok mean_preds) /\ self w2' = self w1'.
Proof.
intros Hc Hm Hd H.
unfold __call__, read_video, bind, set_image_arr, set_predictions, get_self,
  put_self, attr, lift, ret in *.
destruct (video_capture video_path) as [raw|]; [|discriminate].
simpl in *.
destruct (stack (map (fun model => predict model (map preprocess raw))
                   (models (self w1)))) as [preds|e] eqn:E; [|discriminate].
inversion H; subst. eexists. rewrite Hc, Hm, Hd, E. split; reflexivity.
Qed.







End CallExtras.

(** ** [compute_cam] and [get_uncertainty] *)

Section FrameExtras.
Import Numpy.
Context {B : Backend}.

Lemma prefix_iff_append (s1 s2 : string) :
  String.prefix s1 s2 = true <-> exists post, s2 = (s1 ++ post)%string.
Proof.
revert s2. induction s1 as [|a s1 IH]; intro s2.
- split; [intros _; now exists s2|intros _; destruct s2; reflexivity].
- destruct s2 as [|b s2]; simpl.
  + split; [discriminate|intros [post H]; discriminate].
  + destruct (ascii_dec a b) as [->|Hne].
    * rewrite IH. split; intros [post H]; exists post; congruence.
    * split; [discriminate|]. intros [post H]. congruence.
Qed.

Lemma index0_iff_occurs (needle hay : string) :
  String.index 0 needle hay <> None <->
  exists pre post, hay = (pre ++ needle ++ post)%string.
Proof.
induction hay as [|b hay IH].
- simpl. destruct needle as [|a needle].
  + split; [intros _; now exists ""%string, ""%string|discriminate].
  + split; [congruence|]. intros (pre & post & H).
    destruct pre; discriminate.
- cbn [String.index].
  destruct (String.prefix needle (String b hay)) eqn:Ep.
  + split; [|discriminate]. intros _.
    apply prefix_iff_append in Ep. destruct Ep as [post Hp].
    now exists ""%string, post.
  + assert (Hnp : ~ exists post, String b hay = (needle ++ post)%string).
    { intro H. apply prefix_iff_append in H. congruence. }
    split.
    * intro H. destruct (String.index 0 needle hay) eqn:E; [|congruence].
      destruct (proj1 IH) as (pre & post & ->); [discriminate|].
      now exists (String b pre), post.
    * intros (pre & post & H). destruct pre as [|c pre].
      -- exfalso. apply Hnp. now exists post.
      -- simpl in H. inversion H; subst.
         destruct (String.index 0 needle (pre ++ needle ++ post)) eqn:E;
           [discriminate|].
         exfalso. apply (proj2 IH); eauto.
Qed.

(** [contains] is the substring test of Python's [in]. *)
Lemma contains_iff_occurs (needle hay : string) :
  contains needle hay = true <->
  exists pre post, hay = (pre ++ needle ++ post)%string.
Proof.
rewrite <- index0_iff_occurs. unfold contains.
destruct (String.index 0 needle hay); split; congruence.
Qed.

(** X10: [compute_cam] runs the class-activation-map routine exactly when
"cam" occurs somewhere in [model_id], and Grad-CAM on layer block5_conv3 with
image weight 1 and heatmap weight 1/4 otherwise; either way on
[models[model_idx]], and the instance is left as it was. *)
Theorem compute_cam_dispatches_on_model_id
  (w : world) (in_img : Frame) (model_idx class_idx : nat) (zeroing : Q)
  (out_size : Z * Z) (model : Model) :
  nth_error (models (self w)) model_idx = Some model ->
  exists (map_mode : bool) (cam : Image),
    compute_cam in_img model_idx class_idx zeroing out_size w
    = (logged w [EvCam in_img model_idx class_idx map_mode], Ok cam)
    /\ (map_mode = true <->
        exists pre post,
          model_id (config (self w)) = (pre ++ "cam" ++ post)%string)
    /\ cam = (if map_mode
              then get_class_activation_map model in_img class_idx zeroing out_size
              else gradcam_explain in_img model class_idx "block5_conv3"
                     zeroing 1 (1 # 4)).
Proof.
intro Hm. rewrite compute_cam_eq, Hm.
exists (contains "cam" (model_id (config (self w)))). eexists.
split; [reflexivity|]. split; [apply contains_iff_occurs|].
unfold cam_value. reflexivity.
Qed.

Lemma uncertainty_of_errors dropout model_idx model image runs (w w' : world) e :
  uncertainty_of dropout model_idx model image runs w = (w', Raise e) ->
  e = ValueError \/ e = IndexError.
Proof.
unfold uncertainty_of. rewrite repeat_as_map.
unfold bind at 1. rewrite emit_eq.
unfold bind at 1. unfold random. simpl.
destruct (model_call model (repeat (astype_float32 image) runs) (rng w))
  as [raw_logits r'].
unfold bind, lift, ret.
destruct (argmax (mean_axis0_2d raw_logits)) as [pred_idx|e1] eqn:Ea.
2:{ intros [= _ <-]. left.
    destruct (mean_axis0_2d raw_logits); simpl in Ea; congruence. }
unfold getitem.
destruct (nth_error classes pred_idx); [|intros [= _ <-]; now right].
destruct (nth_error (np_std_axis0 raw_logits) pred_idx);
  [discriminate|intros [= _ <-]; now right].
Qed.

(** X11: [make_dropout_evaluator] followed by [get_uncertainty] with
"epistemic" never fails for want of the dropout evaluator: the evaluator is
built with [mc_dropout=True] from the instance's own configuration, and if it
holds a model at the given index that model receives [runs] copies of the
frame itself, not augmented; otherwise the call raises [IndexError].  The
models, frames and predictions of the instance are untouched. *)
Theorem dropout_evaluator_then_epistemic
  (w : world) (model_idx : nat) (image : Frame) (runs : nat) :
  exists w' r,
    bind make_dropout_evaluator
      (fun _ => get_uncertainty model_idx image runs "epistemic") w = (w', r)
    /\ r <> Raise AttributeError
    /\ dropout_evaluator (self w')
       = Some (Evaluator_models (config (self w)) true)
    /\ same_video_state (self w) (self w')
    /\ match nth_error (Evaluator_models (config (self w)) true) model_idx with
       | Some _ =>
           log w' = log w ++
             [EvEvaluator (config (self w)) true;
              EvInference true model_idx (repeat (astype_float32 image) runs)]
       | None =>
           r = Raise IndexError /\
           log w' = log w ++ [EvEvaluator (config (self w)) true]
       end.
Proof.
unfold bind at 1. rewrite make_dropout_evaluator_eq.
set (w0 := fst (make_dropout_evaluator w)).
assert (Hd : dropout_evaluator (self w0)
             = Some (Evaluator_models (config (self w)) true)) by reflexivity.
assert (Hl0 : log w0 = log w ++ [EvEvaluator (config (self w)) true])
  by reflexivity.
assert (Hs0 : same_video_state (self w) (self w0))
  by (repeat split; reflexivity).
unfold get_uncertainty. rewrite String.eqb_refl.
rewrite (bind_attr _ _ _ _ Hd). unfold bind at 1. unfold lift, getitem.
destruct (nth_error (Evaluator_models (config (self w)) true) model_idx)
  as [model|] eqn:Em.
- destruct (uncertainty_of_log true model_idx model image runs w0)
    as (w' & r & Heq & Hs & Hl & _).
  exists w', r. split; [exact Heq|]. split.
  { intro Hr. subst r. apply uncertainty_of_errors in Heq.
    destruct Heq; discriminate. }
  rewrite Hs. split; [exact Hd|]. split; [exact Hs0|].
  rewrite Hl, Hl0, <- app_assoc. reflexivity.
- exists w0, (Raise IndexError). split; [reflexivity|].
  split; [discriminate|]. split; [exact Hd|]. split; [exact Hs0|]. auto.
Qed.

(** [uncertainty_of], when it returns: the label and the precision. *)
Lemma uncertainty_of_result dropout model_idx model image runs (w w' : world) p :
  uncertainty_of dropout model_idx model image runs w = (w', Ok p) ->
  exists raw_logits pred_idx label std,
    raw_logits = fst (model_call model (repeat (astype_float32 image) runs) (rng w))
    /\ first_max (mean_axis0_2d raw_logits) pred_idx
    /\ nth_error classes pred_idx = Some label
    /\ nth_error (np_std_axis0 raw_logits) pred_idx = Some std
    /\ p = Some (confidence_to_precision std, label).
Proof.
unfold uncertainty_of. rewrite repeat_as_map.
unfold bind at 1. rewrite emit_eq.
unfold bind at 1. unfold random. simpl.
destruct (model_call model (repeat (astype_float32 image) runs) (rng w))
  as [raw_logits r'].
unfold bind, lift, ret.
destruct (argmax (mean_axis0_2d raw_logits)) as [pred_idx|e] eqn:Ea;
  [|discriminate].
destruct (getitem classes pred_idx) as [label|e] eqn:Ec; [|discriminate].
destruct (getitem (np_std_axis0 raw_logits) pred_idx) as [std|e] eqn:Es;
  [|discriminate].
intros [= <- <-]. exists raw_logits, pred_idx, label, std.
split; [reflexivity|]. split; [now apply argmax_first_max|].
split; [now apply getitem_Ok|]. split; [now apply getitem_Ok|reflexivity].
Qed.

(** X12: whenever [get_uncertainty] returns a result, it is a pair whose
label is one of the four class names, namely the one at the first maximum of
the mean logits, and whose precision is [confidence_to_precision] of the
standard deviation at that same position. *)
Theorem uncertainty_result_is_labelled
  (w w' : world) (model_idx : nat) (image : Frame) (runs : nat)
  (method : string) (precision : Q) (label : string) :
  get_uncertainty model_idx image runs method w
  = (w', Ok (Some (precision, label))) ->
  In label classes /\
  exists model image' r raw_logits pred_idx std,
    raw_logits
    = fst (model_call model (repeat (astype_float32 image') runs) r)
    /\ first_max (mean_axis0_2d raw_logits) pred_idx
    /\ nth_error classes pred_idx = Some label
    /\ nth_error (np_std_axis0 raw_logits) pred_idx = Some std
    /\ precision = confidence_to_precision std.
Proof.
intro H.
assert (Hres : exists model image' r raw_logits pred_idx lab std,
          raw_logits
          = fst (model_call model (repeat (astype_float32 image') runs) r)
          /\ first_max (mean_axis0_2d raw_logits) pred_idx
          /\ nth_error classes pred_idx = Some lab
          /\ nth_error (np_std_axis0 raw_logits) pred_idx = Some std
          /\ Some (precision, label) = Some (confidence_to_precision std, lab)).
{ unfold get_uncertainty in H.
  destruct (String.eqb method "epistemic").
  - apply bind_Ok in H. destruct H as (w1 & dm & H1 & H).
    apply bind_Ok in H. destruct H as (w2 & model & H2 & H).
    apply uncertainty_of_result in H.
    destruct H as (rl & pi & lab & std & Hrl & Hf & Hc & Hs & Hp).
    exists model, image, (rng w2), rl, pi, lab, std. auto.
  - destruct (String.eqb method "aleatoric").
    + apply bind_Ok in H. destruct H as (w1 & s & H1 & H).
      apply bind_Ok in H. destruct H as (w2 & model & H2 & H).
      apply bind_Ok in H. destruct H as (w3 & u & H3 & H).
      apply bind_Ok in H. destruct H as (w4 & image' & H4 & H).
      apply uncertainty_of_result in H.
      destruct H as (rl & pi & lab & std & Hrl & Hf & Hc & Hs & Hp).
      exists model, image', (rng w4), rl, pi, lab, std. auto.
    + apply bind_Ok in H. destruct H as (w1 & u & H1 & H).
      unfold ret in H. discriminate. }
destruct Hres as (model & image' & r & rl & pi & lab & std & Hrl & Hf & Hc
                 & Hs & Hp).
inversion Hp; subst. split; [eapply nth_error_In; eauto|].
exists model, image', r.
exists (fst (model_call model (repeat (astype_float32 image') runs) r)), pi, std.
auto.
Qed.

End FrameExtras.

(** ** [cam_important_frames]: instance state, return value, composition *)

Section RunExtras.
Import Numpy.
Context {B : Backend}.

Lemma bind_inv {A C} (m : M A) (k : A -> M C) w w' r :
  bind m k w = (w', r) ->
  (exists w1 a, m w = (w1, Ok a) /\ k a w1 = (w', r)) \/
  (exists e, m w = (w', Raise e) /\ r = Raise e).
Proof.
unfold bind. destruct (m w) as [w1 [a|e]]; intro H.
- left. eauto.
- right. inversion H; subst. eauto.
Qed.

Lemma keeps_self_bind {A C} (m : M A) (k : A -> M C) :
  keeps_self m -> (forall a, keeps_self (k a)) -> keeps_self (bind m k).
Proof.
intros Hm Hk w w' r H. apply bind_inv in H.
destruct H as [(w1 & a & H1 & H2)|(e & H1 & _)].
- rewrite (Hk a _ _ _ H2). exact (Hm _ _ _ H1).
- exact (Hm _ _ _ H1).
Qed.

Lemma keeps_self_ret {A} (a : A) : keeps_self (ret a).
Proof. intros w w' r [= <- _]. reflexivity. Qed.

Lemma keeps_self_raise {A} (e : exn) : keeps_self (@raise B A e).
Proof. intros w w' r [= <- _]. reflexivity. Qed.

Lemma keeps_self_lift {A} (x : result A) : keeps_self (lift x).
Proof. intros w w' r [= <- _]. reflexivity. Qed.

Lemma keeps_self_emit (e : event) : keeps_self (emit e).
Proof. intros w w' r [= <- _]. reflexivity. Qed.

Lemma keeps_self_attr {A} (field : VideoEvaluator -> option A) :
  keeps_self (attr field).
Proof.
intros w w' r. unfold attr. destruct (field (self w)); intros [= <- _];
  reflexivity.
Qed.

Lemma keeps_self_assign (dims : Z * Z) (x : Image) : keeps_self (assign dims x).
Proof.
unfold assign. destruct (broadcast_to dims x);
  [apply keeps_self_ret|apply keeps_self_raise].
Qed.

Lemma keeps_self_compute_cam in_img model_idx class_idx zeroing out_size :
  keeps_self (compute_cam in_img model_idx class_idx zeroing out_size).
Proof.
intros w w' r. rewrite compute_cam_eq.
destruct (nth_error (models (self w)) model_idx); intros [= <- _]; reflexivity.
Qed.

Lemma keeps_self_get_uncertainty model_idx image runs method :
  keeps_self (get_uncertainty model_idx image runs method).
Proof.
intros w w' r H.
destruct (get_uncertainty_log model_idx image runs method w)
  as (w1 & r1 & evs & Heq & Hs & _).
rewrite H in Heq. inversion Heq; subst. exact Hs.
Qed.

Lemma keeps_self_resize_loop dims (frames : list Frame) :
  forall idx, keeps_self (resize_loop dims idx frames).
Proof.
induction frames as [|img rest IH]; intro idx; simpl.
- apply keeps_self_ret.
- apply keeps_self_bind; [apply keeps_self_emit|intros _].
  apply keeps_self_bind; [apply keeps_self_assign|intros x].
  apply keeps_self_bind; [apply IH|intros copied]. apply keeps_self_ret.
Qed.

Lemma keeps_self_main_loop class_idx zeroing dims um (frames : list nat) :
  keeps_self (main_loop class_idx zeroing dims um frames).
Proof.
induction frames as [|f rest IH]; simpl.
- apply keeps_self_ret.
- apply keeps_self_bind; [apply keeps_self_attr|intros preds].
  apply keeps_self_bind; [apply keeps_self_lift|intros scores].
  apply keeps_self_bind; [apply keeps_self_lift|intros model_idx].
  apply keeps_self_bind; [apply keeps_self_attr|intros imgs].
  apply keeps_self_bind; [apply keeps_self_lift|intros in_img].
  apply keeps_self_bind; [apply keeps_self_compute_cam|intros cam].
  apply keeps_self_bind; [apply keeps_self_assign|intros cam'].
  apply keeps_self_bind.
  + destruct um as [method|]; [|apply keeps_self_ret].
    apply keeps_self_bind; [apply keeps_self_get_uncertainty|intros p].
    apply keeps_self_ret.
  + intros precision. apply keeps_self_bind; [exact IH|intros [cams precs]].
    apply keeps_self_ret.
Qed.

Lemma keeps_self_compose_loop um dims best cams precs (n : nat) :
  forall j copied, keeps_self (compose_loop n j um dims best cams precs copied).
Proof.
induction n as [|n IH]; intros j copied; simpl.
- apply keeps_self_ret.
- apply keeps_self_bind; [apply keeps_self_lift|intros b].
  apply keeps_self_bind; [apply keeps_self_lift|intros cam].
  apply keeps_self_bind; [apply keeps_self_lift|intros copied1].
  apply keeps_self_bind; [|intros copied2; apply IH].
  destruct um as [method|]; [|apply keeps_self_ret].
  apply keeps_self_bind; [apply keeps_self_lift|intros cur].
  apply keeps_self_bind; [apply keeps_self_lift|intros p].
  destruct p as [[precision label]|]; [|apply keeps_self_raise].
  apply keeps_self_bind; [apply keeps_self_assign|intros x].
  apply keeps_self_lift.
Qed.

Lemma keeps_self_write_loop (frames : list Image) : keeps_self (write_loop frames).
Proof.
induction frames as [|x rest IH]; simpl; [apply keeps_self_ret|].
apply keeps_self_bind; [apply keeps_self_emit|intros _; exact IH].
Qed.

Lemma keeps_self_output path um dims best cams precs copied :
  keeps_self (output path um dims best cams precs copied).
Proof.
unfold output. destruct path as [path|]; [|apply keeps_self_ret].
apply keeps_self_bind; [apply keeps_self_compose_loop|intros copied'].
apply keeps_self_bind; [apply keeps_self_emit|intros _].
apply keeps_self_bind; [apply keeps_self_write_loop|intros _].
apply keeps_self_bind; [apply keeps_self_emit|intros _]. apply keeps_self_ret.
Qed.

(** The instance after [cam_important_frames]: as before, or with the
dropout evaluator built. *)
Lemma cam_important_frames_self
  (threshold : Q) (nr_cams : option Z) (zeroing : Q) (path : option string)
  (um : option string) (dims : Z * Z) (w w' : world)
  (r : result (option (list Image))) :
  cam_important_frames threshold nr_cams zeroing path um dims w = (w', r) ->
  self w' = self w \/ self w' = self (prepared um w).
Proof.
intro H. unfold cam_important_frames in H.
destruct (is_some um && negb (dims_eqb dims (1000, 1000)%Z)).
{ inversion H; subst. now left. }
right.
apply bind_inv in H. destruct H as [(w1 & u & H1 & H)|(e & H1 & _)].
- assert (Hw1 : w1 = prepared um w).
  { unfold prepared. destruct (method_is um "epistemic").
    - rewrite make_dropout_evaluator_eq in H1. now inversion H1.
    - now inversion H1. }
  subst w1. revert H. generalize (prepared um w). intros w0 H.
  assert (Hk : keeps_self
            (bind (attr predictions) (fun predictions =>
             bind (lift (argmax (mean_axis0_2d (mean_axis0_3d predictions))))
               (fun class_idx =>
             bind (lift (column (mean_axis0_3d predictions) class_idx))
               (fun scores =>
             bind (emit (EvPrint (MsgPredClass class_idx
                     (best_frames np_argsort nr_cams threshold scores))))
               (fun _ =>
             bind (attr image_arr) (fun image_arr =>
             bind (resize_loop dims 0 image_arr) (fun copied_arr =>
             bind (main_loop class_idx zeroing dims um
                     (best_frames np_argsort nr_cams threshold scores))
               (fun '(cams, precs) =>
                  output path um dims
                    (best_frames np_argsort nr_cams threshold scores)
                    cams precs copied_arr))))))))).
  { apply keeps_self_bind; [apply keeps_self_attr|intros preds].
    apply keeps_self_bind; [apply keeps_self_lift|intros class_idx].
    apply keeps_self_bind; [apply keeps_self_lift|intros scores].
    apply keeps_self_bind; [apply keeps_self_emit|intros _].
    apply keeps_self_bind; [apply keeps_self_attr|intros imgs].
    apply keeps_self_bind; [apply keeps_self_resize_loop|intros copied].
    apply keeps_self_bind; [apply keeps_self_main_loop|intros [cams precs]].
    apply keeps_self_output. }
  exact (Hk _ _ _ H).
- unfold prepared. destruct (method_is um "epistemic").
  + rewrite make_dropout_evaluator_eq in H1. discriminate.
  + inversion H1.
Qed.

(** X13: whatever its arguments and its outcome, [cam_important_frames]
never touches the models, the configuration, the stored frames or the stored
predictions; unless the method is "epistemic", it changes no attribute at
all. *)
Theorem cam_important_frames_keeps_video_state
  (threshold : Q) (nr_cams : option Z) (zeroing : Q) (path : option string)
  (um : option string) (dims : Z * Z) (w w' : world)
  (r : result (option (list Image))) :
  cam_important_frames threshold nr_cams zeroing path um dims w = (w', r) ->
  same_video_state (self w) (self w') /\
  (um <> Some "epistemic"%string -> self w' = self w).
Proof.
intro H. apply cam_important_frames_self in H.
destruct (prepared_self um w) as (Hc & Hm & Hi & Hp & _).
split.
- unfold same_video_state. destruct H as [-> | ->]; auto.
- intro Hne. destruct H as [H|H]; [exact H|]. rewrite H. unfold prepared.
  destruct (method_is um "epistemic") eqn:E; [|reflexivity].
  apply method_is_epistemic in E. contradiction.
Qed.

(** X14: on an instance that has not evaluated a video yet, once the guard
on the dimensions is passed, [cam_important_frames] raises
[AttributeError]; with "epistemic" the dropout evaluator has been built by
then, otherwise nothing has happened. *)
Theorem explain_before_evaluate_raises
  (threshold : Q) (nr_cams : option Z) (zeroing : Q) (path : option string)
  (um : option string) (dims : Z * Z) (w : world) :
  predictions (self w) = None ->
  (um <> None -> dims = (1000, 1000)%Z) ->
  cam_important_frames threshold nr_cams zeroing path um dims w
  = (prepared um w, Raise AttributeError).
Proof.
intros Hp Hdims. unfold cam_important_frames.
assert (Hguard : is_some um && negb (dims_eqb dims (1000, 1000)%Z) = false).
{ destruct um as [m|]; [|reflexivity]. rewrite Hdims by discriminate.
  reflexivity. }
rewrite Hguard.
destruct (prepared_self um w) as (_ & _ & _ & Hp' & _).
rewrite Hp in Hp'.
unfold prepared in *. destruct (method_is um "epistemic").
- unfold bind at 1. rewrite make_dropout_evaluator_eq.
  unfold bind, attr. now rewrite Hp'.
- unfold bind, ret, attr. now rewrite Hp.
Qed.

End RunExtras.

Section ReturnExtras.
Import Numpy.
Context {B : Backend}.







End ReturnExtras.

(** ** Identical runs, and the order of the phases *)

Section MoreExtras.
Import Numpy.
Context {B : Backend}.













End MoreExtras.

(** ** The further properties on the example video *)

Lemma call_on_missing_video_raises_witness :
  @__call__ Example.backend "missing.mp4" Example.world1
  = (Example.world1, Raise AssertionError).
Proof.
apply (@call_on_missing_video_raises Example.backend Example.world1
         "missing.mp4"%string).
reflexivity.
Defined.

Lemma call_stack_failure_leaves_stale_predictions_witness :
  exists w',
    @__call__ Example.backend "video.mp4" Example.world_no_models
    = (w', Raise ValueError)
    /\ image_arr (self w') = Some (map (@preprocess Example.backend) [0; 1; 2; 3]%nat)
    /\ predictions (self w') = predictions (self Example.world_no_models)
    /\ models (self w') = models (self Example.world_no_models)
    /\ log w' = log Example.world_no_models.
Proof.
apply (@call_stack_failure_leaves_stale_predictions Example.backend
         Example.world_no_models "video.mp4"%string [0; 1; 2; 3]%nat ValueError);
  reflexivity.
Defined.

Lemma call_overwrites_previous_video_witness :
  exists w2',
    @__call__ Example.backend "video.mp4" Example.world1
    = (w2', Ok (Numpy.mean_axis0_3d Example.preds1))
    /\ self w2' = self Example.world1.
Proof.
apply (@call_overwrites_previous_video Example.backend Example.world0
         Example.world1 "video.mp4"%string Example.world1
         (Numpy.mean_axis0_3d Example.preds1)); reflexivity.
Defined.


Lemma compute_cam_dispatches_on_model_id_witness :
  exists (map_mode : bool) (cam : @Image Example.backend),
    @compute_cam Example.backend 3%nat 0 0 (13 # 20) (224, 224)%Z Example.world1
    = (logged Example.world1 [@EvCam Example.backend 3%nat 0 0 map_mode], Ok cam)
    /\ (map_mode = true <->
        exists pre post,
          model_id (config (self Example.world1)) = (pre ++ "cam" ++ post)%string)
    /\ cam = (if map_mode
              then @get_class_activation_map Example.backend 0%nat 3%nat 0
                     (13 # 20) (224, 224)%Z
              else @gradcam_explain Example.backend 3%nat 0%nat 0 "block5_conv3"
                     (13 # 20) 1 (1 # 4)).
Proof.
apply (@compute_cam_dispatches_on_model_id Example.backend Example.world1
         3%nat 0%nat 0%nat (13 # 20) (224, 224)%Z 0%nat).
reflexivity.
Defined.

Lemma uncertainty_result_is_labelled_witness :
  In "covid"%string classes /\
  exists model image' r raw_logits pred_idx std,
    raw_logits
    = fst (@model_call Example.backend model
             (repeat (@astype_float32 Example.backend image') 10) r)
    /\ first_max (Numpy.mean_axis0_2d raw_logits) pred_idx
    /\ nth_error classes pred_idx = Some "covid"%string
    /\ nth_error (@np_std_axis0 Example.backend raw_logits) pred_idx = Some std
    /\ 1 - 0 = @confidence_to_precision Example.backend std.
Proof.
apply (@uncertainty_result_is_labelled Example.backend Example.world1
         (fst (@get_uncertainty Example.backend 0 3%nat 10 "aleatoric"
                 Example.world1))
         0%nat 3%nat 10%nat "aleatoric"%string (1 - 0) "covid"%string).
reflexivity.
Defined.

Lemma cam_important_frames_keeps_video_state_witness :
  same_video_state (self Example.world1)
    (self (fst (@cam_important_frames Example.backend (3 # 4) None (13 # 20)
                  (Some "out"%string) (Some "bayesian"%string) (1000, 1000)%Z
                  Example.world1)))
  /\ (Some "bayesian"%string <> Some "epistemic"%string ->
      self (fst (@cam_important_frames Example.backend (3 # 4) None (13 # 20)
                   (Some "out"%string) (Some "bayesian"%string) (1000, 1000)%Z
                   Example.world1))
      = self Example.world1).
Proof.
apply (@cam_important_frames_keeps_video_state Example.backend (3 # 4) None
         (13 # 20) (Some "out"%string) (Some "bayesian"%string) (1000, 1000)%Z
         Example.world1 _
         (snd (@cam_important_frames Example.backend (3 # 4) None (13 # 20)
                 (Some "out"%string) (Some "bayesian"%string) (1000, 1000)%Z
                 Example.world1))).
apply surjective_pairing.
Defined.

Lemma explain_before_evaluate_raises_witness :
  @cam_important_frames Example.backend (3 # 4) None (13 # 20) None
    (Some "epistemic"%string) (1000, 1000)%Z Example.world0
  = (prepared (Some "epistemic"%string) Example.world0, Raise AttributeError).
Proof.
apply (@explain_before_evaluate_raises Example.backend (3 # 4) None (13 # 20)
         None (Some "epistemic"%string) (1000, 1000)%Z Example.world0);
  reflexivity.
Defined.




